(** * Chunked concurrent file processing (split.go)

    A shallow embedding of [readChunks], [writeResults], [ProcessFile] and
    [ReadValue], and the properties that the specification states about
    them.

    Conventions of the embedding:
    - a Go [int] / [int64] is a [Z]; arithmetic that can leave the 64-bit
      range goes through [wrap];
    - a Go [string] / [[]byte] is a list of bytes;
    - a channel is the FIFO sequence of the values sent on it, with a
      [closed] flag;
    - the file system is a finite map from paths to nodes; the faults the
      code reacts to (an unreadable sector, a device that stops accepting
      bytes, a failing close) are part of the [world];
    - the unbounded [for] loop of [readChunks] takes fuel, and the theorems
      show which fuel is enough;
    - the interleaving of the worker goroutines is a schedule: the list of
      the workers' turns. *)

From Stdlib Require Import ZArith List Lia Strings.Byte Strings.String.
From stdpp Require Import gmap strings list fin_maps.

Abbreviation bytes := (list Byte.byte).

(** ** Machine integers *)

Module Int.

Definition max : Z := 2 ^ 63 - 1.
Definition min : Z := - 2 ^ 63.

(** Two's complement wrap-around of a 64-bit signed integer. *)
Definition wrap (z : Z) : Z := ((z + 2 ^ 63) mod 2 ^ 64 - 2 ^ 63)%Z.

Definition inc (i : Z) : Z := wrap (i + 1).
Definition mul (a b : Z) : Z := wrap (a * b).

(** The value of a counter that started at 0 after [k] increments. *)
Definition count (k : nat) : Z := Nat.iter k inc 0%Z.

End Int.

(** ** Data *)

(** type shard struct { index int; value string } *)
Record shard := Shard { index : Z; value : bytes }.

(** A channel: what was sent on it, oldest first, and whether it is closed. *)
Record chan (A : Type) := Chan { queue : list A; closed : bool }.
Arguments Chan {A} _ _.
Arguments queue {A} _.
Arguments closed {A} _.

Definition make {A : Type} : chan A := Chan [] false.
Definition send {A : Type} (c : chan A) (x : A) : chan A :=
  Chan (queue c ++ [x]) (closed c).
Definition close {A : Type} (c : chan A) : chan A := Chan (queue c) true.

(** What the functions print. *)
Inductive msg :=
| ErrOpening      (* "Error opening file:" err *)
| ErrClosing      (* "Error closing file:" err *)
| ErrReading      (* "Error reading file:" err *)
| ErrPlain        (* fmt.Println(err) *)
| ErrIncomplete   (* "Error reading file: incomplete value!" *)
| Success.        (* "file written successfully!" *)

(** How a call ends: it returns, it panics, or the fuel ran out. *)
Inductive run (A : Type) :=
| Done (a : A)
| Panic
| Spin.
Arguments Done {A} _.
Arguments Panic {A}.
Arguments Spin {A}.

(** ** The file system *)

(** A regular file has its content and, possibly, the offset of its first
    unreadable byte; [NoAccess] stands for a path that cannot be opened,
    for reading or for writing (missing permissions, a missing parent
    directory). *)
Inductive node :=
| Regular (data : bytes) (bad : option nat)
| NoAccess.

(** [room]: how many bytes the output device still accepts ([None]: no
    limit). [close_err]: whether closing a file fails. *)
Record world := World {
  files : gmap string node;
  room : option nat;
  close_err : bool
}.

Definition file_size (w : world) (name : string) : nat :=
  match files w !! name with
  | Some (Regular d _) => length d
  | _ => 0
  end.

(** Every regular file is shorter than 2^63 bytes (offsets are int64). *)
Definition world_ok (w : world) : Prop :=
  forall name d b, files w !! name = Some (Regular d b) ->
    (Z.of_nat (length d) <= Int.max)%Z.

(** *** Reading *)

Inductive ioerr := EOF | ErrUnexpectedEOF | EIO | ENOSPC.

Definition ioerr_eqb (a b : ioerr) : bool :=
  match a, b with
  | EOF, EOF | ErrUnexpectedEOF, ErrUnexpectedEOF | EIO, EIO
  | ENOSPC, ENOSPC => true
  | _, _ => false
  end.

(** [err != e] on a Go error value ([None] is [nil]). *)
Definition err_ne (err : option ioerr) (e : option ioerr) : bool :=
  match err, e with
  | None, None => false
  | Some a, Some b => negb (ioerr_eqb a b)
  | _, _ => true
  end.

(** A file opened for reading. *)
Record rfile := RFile { r_data : bytes; r_bad : option nat; r_pos : nat }.

(** The offset up to which bytes can be delivered. *)
Definition limit (data : bytes) (bad : option nat) : nat :=
  match bad with
  | Some b => Nat.min b (length data)
  | None => length data
  end.

(** os.Open *)
Definition Open (w : world) (name : string) : option rfile :=
  match files w !! name with
  | Some (Regular d b) => Some (RFile d b 0)
  | _ => None
  end.

(** io.ReadFull(reader, buffer) with [len(buffer) = n]: the bytes read, the
    error and the file after the read. *)
Definition ReadFull (f : rfile) (n : nat) : bytes * option ioerr * rfile :=
  let lim := limit (r_data f) (r_bad f) in
  let good := lim - r_pos f in
  let got k := take k (drop (r_pos f) (r_data f)) in
  let adv k := RFile (r_data f) (r_bad f) (r_pos f + k) in
  if n <=? good then (got n, None, adv n)
  else if lim <? length (r_data f) then (got good, Some EIO, adv good)
  else if good =? 0 then ([], Some EOF, f)
  else (got good, Some ErrUnexpectedEOF, adv good).

(** ** readChunks *)

(** The [for i := 0; ; i++] loop. *)
Fixpoint readLoop (fuel : nat) (f : rfile) (size : nat) (i : Z)
    (output : chan shard) (log : list msg) : option (chan shard * list msg) :=
  match fuel with
  | O => None
  | S fuel' =>
    let '(buffer, err, f') := ReadFull f size in
    if err_ne err None && err_ne err (Some ErrUnexpectedEOF) then
      Some (output, if err_ne err (Some EOF) then log ++ [ErrReading] else log)
    else
      readLoop fuel' f' size (Int.inc i) (send output (Shard i buffer)) log
  end.

(** [defer close(output)] runs on every return; the deferred [file.Close]
    prints when it fails. [make([]byte, size)] panics for a negative size.
    Memory has no bound here: a [size] above what the runtime can allocate
    makes the program panic in [make] as well, and is outside of what the
    statements below say. *)
Definition readChunks (fuel : nat) (w : world) (filename : string)
    (output : chan shard) (size : Z) : run (chan shard * list msg) :=
  match Open w filename with
  | None => Done (close output, [ErrOpening])
  | Some file =>
    if (size <? 0)%Z then Panic
    else
      match readLoop fuel file (Z.to_nat size) 0%Z output [] with
      | None => Spin
      | Some (out, log) =>
        Done (close out, if close_err w then log ++ [ErrClosing] else log)
      end
  end.

(** The chunk with number [k] of a file cut in pieces of [c] bytes. *)
Definition chunk (data : bytes) (c k : nat) : bytes :=
  take c (drop (k * c) data).

Definition chunks (data : bytes) (c n : nat) : list shard :=
  (fun k => Shard (Int.count k) (chunk data c k)) <$> seq 0 n.

Definition ceil_div (a b : nat) : nat := (a + b - 1) / b.

(** How many chunks [readChunks] emits for a file. *)
Definition chunk_count (data : bytes) (bad : option nat) (c : nat) : nat :=
  if limit data bad <? length data then limit data bad / c
  else ceil_div (length data) c.

(** ** writeResults *)

(** A file opened for writing: its path and the offset of the next write.
    [w_calls] records the strings passed to [WriteString], oldest first. *)
Record wfile := WFile { w_name : string; w_pos : nat; w_calls : list bytes }.

Definition content (w : world) (name : string) : bytes :=
  match files w !! name with
  | Some (Regular d _) => d
  | _ => []
  end.

Definition bad_of (w : world) (name : string) : option nat :=
  match files w !! name with
  | Some (Regular _ b) => b
  | _ => None
  end.

(** os.OpenFile(filename, os.O_WRONLY|os.O_CREATE, 0644): an existing file
    is opened as it is, at offset 0; a missing one is created empty. *)
Definition OpenFile (w : world) (name : string) : option (world * wfile) :=
  match files w !! name with
  | Some (Regular _ _) => Some (w, WFile name 0 [])
  | Some NoAccess => None
  | None =>
    Some (World (<[name := Regular [] None]> (files w)) (room w) (close_err w),
          WFile name 0 [])
  end.

(** The bytes of [old] replaced by [s] from offset [pos] on. *)
Definition overwrite (old : bytes) (pos : nat) (s : bytes) : bytes :=
  take pos old ++ s ++ drop (pos + length s) old.

(** file.WriteString(s): the device takes as many bytes of [s] as it has
    room for, and the call fails when that is not all of them. *)
Definition WriteString (w : world) (f : wfile) (s : bytes)
    : world * wfile * option ioerr :=
  let n := match room w with
           | Some r => Nat.min r (length s)
           | None => length s
           end in
  let new := overwrite (content w (w_name f)) (w_pos f) (take n s) in
  (World (<[w_name f := Regular new (bad_of w (w_name f))]> (files w))
         ((fun r => r - n) <$> room w) (close_err w),
   WFile (w_name f) (w_pos f + n) (w_calls f ++ [s]),
   if n <? length s then Some ENOSPC else None).

(** for ct := range results { result[ct.index] = ct.value } *)
Definition collect (results : list shard) : gmap Z bytes :=
  foldl (fun result ct => <[index ct := value ct]> result) ∅ results.

(** result[i]: a missing key reads as the empty string. *)
Definition at_index (result : gmap Z bytes) (i : Z) : bytes :=
  default [] (result !! i).

(** What [writeResults] leaves behind. *)
Record collected := Collected {
  c_world : world;
  c_done : chan bool;
  c_log : list msg;
  c_calls : list bytes
}.

(** The loop [for i := 0; i < len(result); i++] with [n] iterations to go.
    [i + 1] cannot leave the range of int: [i < len(result)]. *)
Fixpoint writeLoop (n : nat) (i : Z) (result : gmap Z bytes)
    (w : world) (file : wfile) (done : chan bool) (log : list msg)
    : world * wfile * chan bool * list msg :=
  match n with
  | O => (w, file, done, log)
  | S n' =>
    let '(w', file', err) := WriteString w file (at_index result i) in
    match err with
    | Some _ => (w', file', send done false, log ++ [ErrPlain])
    | None => writeLoop n' (i + 1) result w' file' done log
    end
  end.

(** [results] is the channel when the collector has drained it; as long as
    nobody closes it the [range] loop does not end. After the loop comes
    [done <- true], whatever the loop did, and then the deferred
    [file.Close]. The queue of [done] lists the sends in program order,
    and the run described is the one in which every send finds its
    receiver (a [done] with a buffer, or a caller that keeps receiving).
    On the unbuffered channel of [ProcessFile], which receives once, the
    first send is the only one to complete: the collector stays blocked
    in its second send, so that its goroutine does not return there, and
    after a failed write it does not reach the deferred [file.Close].
    All the writes come before the first send. *)
Definition writeResults (results : chan shard) (w : world)
    (filename : string) (done : chan bool) : run collected :=
  if closed results then
    let result := collect (queue results) in
    match OpenFile w filename with
    | None => Done (Collected w (send done false) [ErrPlain] [])
    | Some (w1, file) =>
      let '(w2, file2, done2, log) :=
        writeLoop (size result) 0 result w1 file done [] in
      let done3 := send done2 true in
      if close_err w
      then Done (Collected w2 (send done3 false) (log ++ [ErrClosing])
                           (w_calls file2))
      else Done (Collected w2 done3 log (w_calls file2))
    end
  else Spin.

(** ** The worker pool *)

(** [chunkQ]: what is still to be received from readChannel; [hands]: for
    each worker the result it has computed and not yet sent; [resultQ]:
    what was sent on resultChannel. *)
Record pool := Pool {
  chunkQ : list shard;
  hands : list (option shard);
  resultQ : list shard
}.

(** One turn of worker [i]: it sends the result it holds, or receives the
    next chunk and processes it; with nothing to receive it stays put. *)
Definition turn (process : shard -> shard) (p : pool) (i : nat) : pool :=
  match hands p !! i with
  | Some (Some r) =>
    Pool (chunkQ p) (<[i := None]> (hands p)) (resultQ p ++ [r])
  | Some None =>
    match chunkQ p with
    | read :: rest =>
      Pool rest (<[i := Some (process read)]> (hands p)) (resultQ p)
    | [] => p
    end
  | None => p
  end.

Definition play (process : shard -> shard) (schedule : list nat) (p : pool)
    : pool :=
  foldl (turn process) p schedule.

Definition start (pending : list shard) (num : nat) : pool :=
  Pool pending (replicate num None) [].

Definition drained (p : pool) : bool :=
  match chunkQ p with [] => true | _ => false end.

Definition resting (h : option shard) : bool :=
  match h with None => true | Some _ => false end.

(** wg.Wait() returns: every worker has left its [range] loop. *)
Definition joined (p : pool) : bool :=
  forallb (fun h => resting h && drained p) (hands p).

(** ** ProcessFile *)

(** What there is when [ProcessFile] returns. [o_world]: the file system,
    all the writes of the collector made. [o_done]: the sends of the
    collector on [writingSuccessful] in program order, of which
    [ProcessFile] receives the first. [o_stdout]: what [ProcessFile]
    itself prints (the success message or nothing); the diagnostics that
    the producer and the collector print on the same output are in their
    own logs and are not repeated in this field. *)
Record outcome := Outcome {
  o_world : world;
  o_read : chan shard;
  o_results : chan shard;
  o_done : chan bool;
  o_calls : list bytes;
  o_stdout : list msg
}.

(** After wg.Wait(): close(resultChannel), the collector runs, and the
    first value on [writingSuccessful] decides what is printed. *)
Definition finish (w : world) (outputFile : string) (read : chan shard)
    (sent : list shard) : run outcome :=
  let resultChannel := close (Chan sent false) in
  match writeResults resultChannel w outputFile make with
  | Done c =>
    Done (Outcome (c_world c) read resultChannel (c_done c) (c_calls c)
            (match queue (c_done c) with
             | true :: _ => [Success]
             | _ => []
             end))
  | Panic => Panic
  | Spin => Spin
  end.

(** [make(chan shard, num)] panics for a negative [num]. Without workers
    nothing is received from readChannel and wg.Wait() returns at once. *)
Definition ProcessFile (fuel : nat) (schedule : list nat) (w : world)
    (inputFile outputFile : string) (process : shard -> shard)
    (num size : Z) : run outcome :=
  if (num <? 0)%Z then Panic
  else
    match readChunks fuel w inputFile make size, Z.to_nat num with
    | Panic, _ => Panic
    | Spin, O => finish w outputFile make []
    | Spin, S _ => Spin
    | Done (read, _), n =>
      let p := play process schedule (start (queue read) n) in
      if joined p then finish w outputFile read (resultQ p) else Spin
    end.

(** ** ReadValue *)

(** file.ReadAt(buffer, off) with [len(buffer) = n]: the number of bytes
    read and the buffer. A negative offset is an error, with nothing read. *)
Definition ReadAt (f : rfile) (n : nat) (off : Z) : nat * bytes :=
  if (off <? 0)%Z then (0, replicate n x00)
  else
    let readable := take (limit (r_data f) (r_bad f)) (r_data f) in
    let got := take n (drop (Z.to_nat off) readable) in
    (length got, got ++ replicate (n - length got) x00).

(** [index * size] is an int64 product. [make([]byte, size)] panics for a
    negative size; as in [readChunks], memory has no bound here. *)
Definition ReadValue (w : world) (filePath : string) (index size : Z)
    : run (option bytes * list msg) :=
  match Open w filePath with
  | None => Done (None, [ErrOpening])
  | Some file =>
    if (size <? 0)%Z then Panic
    else
      let '(n, buffer) := ReadAt file (Z.to_nat size) (Int.mul index size) in
      let closing := if close_err w then [ErrClosing] else [] in
      if (Z.of_nat n <? size)%Z
      then Done (None, ErrIncomplete :: closing)
      else Done (Some buffer, closing)
  end.

(** ** Vocabulary of the statements *)

(** The world with the node at [name] replaced. *)
Definition with_file (w : world) (name : string) (nd : node) : world :=
  World (<[name := nd]> (files w)) (room w) (close_err w).

(** The strings that [n] iterations of the write loop look up from index
    [i] on: result[i], ..., result[i+n-1]. *)
Definition lookups (result : gmap Z bytes) (i : Z) (n : nat) : list bytes :=
  (fun j => at_index result (i + Z.of_nat j)) <$> seq 0 n.

(** The strings the write loop looks up: result[0], ..., result[count-1]
    with count = len(result). *)
Definition payloads (result : gmap Z bytes) : list bytes :=
  lookups result 0 (size result).

(** Whether a device with room [r] takes all of the strings [l]. *)
Definition fits (r : option nat) (l : list bytes) : bool :=
  match r with
  | None => true
  | Some r0 => length (concat l) <=? r0
  end.

(** The number of [WriteString] calls made for the strings [l]: all of
    them, or those up to the first one the device does not take whole. *)
Fixpoint attempts (r : option nat) (l : list bytes) : nat :=
  match l with
  | [] => 0
  | s :: l' =>
    match r with
    | None => S (attempts None l')
    | Some r0 =>
      if r0 <? length s then 1 else S (attempts (Some (r0 - length s)) l')
    end
  end.

(** The bytes of [s] that a device with room [r] takes. *)
Definition accepted (r : option nat) (s : bytes) : bytes :=
  match r with
  | None => s
  | Some r0 => take r0 s
  end.

(** The chunks of a file of bytes [d] cut in pieces of [size] bytes. *)
Definition produced (d : bytes) (size : Z) : list shard :=
  chunks d (Z.to_nat size) (ceil_div (length d) (Z.to_nat size)).

(** The schedule lets every worker run until it leaves its loop. *)
Definition completes (process : shard -> shard) (schedule : list nat)
    (pending : list shard) (num : nat) : Prop :=
  joined (play process schedule (start pending num)) = true.

(** Worker 0 takes every chunk in turn. *)
Definition solo (pending : list shard) : list nat :=
  replicate (2 * length pending) 0.

(** A file of [n] records of [size] bytes each. *)
Definition uniform (records : list bytes) (size : nat) : Prop :=
  Forall (fun r => length r = size) records.

(** ** Sample inputs *)

Module Sample.

Definition B (s : string) : bytes := list_byte_of_string s.

(** The scenario of the specification: ten bytes, read in chunks of 4. *)
Definition ten : bytes := B "ABCDEFGHIJ".

Definition w_ten : world :=
  World {[ "in"%string := Regular ten None ]} None false.

(** The same file with an unreadable byte at offset 9. *)
Definition w_bad : world :=
  World {[ "in"%string := Regular ten (Some 9) ]} None false.

Definition identity (s : shard) : shard := s.

(** An output file that exists before the run. *)
Definition w_old : world :=
  World {[ "out"%string := Regular (B "0123456789") None ]} None false.

(** A short input next to a longer output file that exists already. *)
Definition w_over : world :=
  World {[ "in"%string := Regular (B "AB") None;
           "out"%string := Regular (B "0123456789") None ]} None false.


(** A device that takes three more bytes. *)
Definition w_full : world := World ∅ (Some 3) false.

(** One result, and two results with a gap between their indices. *)
Definition one : chan shard := Chan [Shard 0 (B "AB")] true.
Definition two : chan shard := Chan [Shard 1 (B "CD"); Shard 0 (B "AB")] true.
Definition gap : chan shard := Chan [Shard 0 (B "A"); Shard 2 (B "C")] true.

(** The ten bytes again, on a system where closing a file fails. *)
Definition w_stuck : world :=
  World {[ "in"%string := Regular ten None ]} None true.

(** A transform with payloads of two bytes: the first two bytes of the
    chunk, padded with "_". *)
Definition stamp (s : shard) : shard :=
  Shard (index s) (take 2 (value s ++ B "__")).

(** A file of one record of four bytes. *)
Definition w_rec : world :=
  World {[ "db"%string := Regular (B "ABCD") None ]} None false.

End Sample.

(** * Properties *)

(** ** Machine integers *)

Lemma wrap_small (z : Z) : (Int.min <= z <= Int.max)%Z -> Int.wrap z = z.
Proof.
  unfold Int.wrap, Int.min, Int.max. intros Hz.
  rewrite Z.mod_small; lia.
Qed.

Lemma count_succ (k : nat) : Int.count (S k) = Int.inc (Int.count k).
Proof. reflexivity. Qed.

Lemma count_small (k : nat) :
  (Z.of_nat k <= Int.max)%Z -> Int.count k = Z.of_nat k.
Proof.
  induction k as [|k IH]; intros Hk; [reflexivity|].
  rewrite count_succ, IH by lia. unfold Int.inc.
  rewrite wrap_small; unfold Int.min, Int.max in *; lia.
Qed.

(** ** The reading loop *)

Lemma limit_le (data : bytes) (bad : option nat) :
  limit data bad <= length data.
Proof. unfold limit. destruct bad; lia. Qed.

Section reader.
Variables (data : bytes) (bad : option nat) (c : nat).
Hypothesis c_pos : 0 < c.

Local Abbreviation lim := (limit data bad).
Local Abbreviation n := (chunk_count data bad c).

Lemma count_faulty : lim < length data -> n * c <= lim < (n + 1) * c.
Proof.
  intros Hl. unfold chunk_count.
  destruct (Nat.ltb_spec lim (length data)); [|lia].
  pose proof (Nat.div_mod_eq lim c).
  pose proof (Nat.mod_upper_bound lim c). nia.
Qed.

Lemma count_sound :
  lim = length data -> length data <= n * c < length data + c.
Proof.
  intros Hl. unfold chunk_count, ceil_div.
  destruct (Nat.ltb_spec lim (length data)); [lia|].
  pose proof (Nat.div_mod_eq (length data + c - 1) c).
  pose proof (Nat.mod_upper_bound (length data + c - 1) c). nia.
Qed.

Lemma readLoop_spec (fuel : nat) : forall k out log,
  k <= n -> n - k < fuel ->
  readLoop fuel (RFile data bad (Nat.min (k * c) lim)) c (Int.count k)
           out log
  = Some (Chan (queue out ++
                ((fun j => Shard (Int.count j) (chunk data c j))
                   <$> seq k (n - k)))
               (closed out),
          if lim <? length data then log ++ [ErrReading] else log).
Proof.
  induction fuel as [|fuel IH]; intros k out log Hk Hfuel; [lia|].
  pose proof (limit_le data bad) as Hle.
  cbn [readLoop]. unfold ReadFull. cbn [r_data r_bad r_pos].
  destruct (Nat.leb_spec c (lim - Nat.min (k * c) lim)) as [Hfull|Hshort].
  - (* a full buffer *)
    assert (Hpos : Nat.min (k * c) lim = k * c) by lia.
    assert (Hk' : S k <= n).
    { destruct (Nat.lt_ge_cases lim (length data)) as [Hf|Hf].
      - pose proof (count_faulty Hf). nia.
      - assert (lim = length data) as Heq by lia.
        pose proof (count_sound Heq). nia. }
    cbn [err_ne andb]. rewrite Hpos.
    replace (k * c + c) with (Nat.min (S k * c) lim) by lia.
    rewrite <- count_succ, IH by lia.
    replace (n - k) with (S (n - S k)) by lia.
    cbn [seq fmap list_fmap send queue closed].
    rewrite <- app_assoc. reflexivity.
  - destruct (Nat.ltb_spec lim (length data)) as [Hf|Hf].
    + (* the unreadable byte is in the way *)
      pose proof (count_faulty Hf).
      assert (n = k) as -> by nia.
      cbn. rewrite Nat.sub_diag, app_nil_r. by destruct out.
    + assert (lim = length data) as Heq by lia.
      pose proof (count_sound Heq).
      destruct (Nat.eqb_spec (lim - Nat.min (k * c) lim) 0) as [Hz|Hnz].
      * (* end of file *)
        assert (n = k) as -> by nia.
        cbn. rewrite Nat.sub_diag, app_nil_r. by destruct out.
      * (* the last, short chunk *)
        assert (Hpos : Nat.min (k * c) lim = k * c) by lia.
        assert (Hk' : S k <= n) by nia.
        cbn [err_ne andb ioerr_eqb negb]. rewrite Hpos.
        replace (k * c + (lim - k * c)) with (Nat.min (S k * c) lim) by lia.
        rewrite <- count_succ, IH by lia.
        replace (n - k) with (S (n - S k)) by lia.
        cbn [seq fmap list_fmap send queue closed].
        rewrite <- app_assoc. do 4 f_equal. unfold chunk.
        rewrite !take_ge; [reflexivity| |]; rewrite length_drop; lia.
Qed.
End reader.


Lemma chunk_count_le (d : bytes) (b : option nat) (c : nat) :
  0 < c -> chunk_count d b c <= length d.
Proof.
  intros Hc. pose proof (limit_le d b) as Hle.
  destruct (Nat.lt_ge_cases (limit d b) (length d)) as [Hf|Hf].
  - pose proof (count_faulty d b c Hc Hf). nia.
  - assert (limit d b = length d) as Heq by lia.
    pose proof (count_sound d b c Hc Heq).
    destruct (Nat.le_gt_cases (chunk_count d b c) (length d)); [done|].
    assert ((length d + 1) * c <= chunk_count d b c * c)
      by (apply Nat.mul_le_mono_r; lia).
    nia.
Qed.

Lemma readChunks_regular (fuel : nat) (w : world) (name : string)
    (d : bytes) (b : option nat) (size : Z) :
  files w !! name = Some (Regular d b) ->
  (0 < size)%Z -> length d < fuel ->
  exists log,
    readChunks fuel w name make size
    = Done (Chan (chunks d (Z.to_nat size)
                    (chunk_count d b (Z.to_nat size))) true, log).
Proof.
  intros Hf Hs Hfuel. unfold readChunks, Open. rewrite Hf.
  destruct (Z.ltb_spec size 0) as [|_]; [lia|].
  assert (Hc : 0 < Z.to_nat size) by lia.
  pose proof (chunk_count_le d b _ Hc) as Hn.
  pose proof (readLoop_spec d b _ Hc fuel 0 make [] ltac:(lia) ltac:(lia))
    as Hloop.
  change (Int.count 0) with 0%Z in Hloop.
  cbn [Nat.mul Nat.min] in Hloop. rewrite Hloop.
  rewrite Nat.sub_0_r. cbn [queue app closed close].
  eexists. reflexivity.
Qed.

Lemma readChunks_missing (fuel : nat) (w : world) (name : string)
    (out : chan shard) (size : Z) :
  Open w name = None ->
  readChunks fuel w name out size = Done (close out, [ErrOpening]).
Proof. intros H. unfold readChunks. by rewrite H. Qed.

Lemma Open_None (w : world) (name : string) :
  Open w name = None <->
  files w !! name = None \/ files w !! name = Some NoAccess.
Proof.
  unfold Open. destruct (files w !! name) as [[d b|]|].
  - split; [discriminate|intros [?|?]; discriminate].
  - split; [by right|done].
  - split; [by left|done].
Qed.

Lemma chunks_length (d : bytes) (c n : nat) : length (chunks d c n) = n.
Proof. unfold chunks. by rewrite length_fmap, length_seq. Qed.

Lemma chunks_index (d : bytes) (c n : nat) :
  (Z.of_nat n <= Int.max + 1)%Z ->
  index <$> chunks d c n = Z.of_nat <$> seq 0 n.
Proof.
  intros Hn. unfold chunks. rewrite <- list_fmap_compose.
  apply list_fmap_ext. intros i k Hk. apply lookup_seq in Hk. cbn.
  apply count_small. unfold Int.max in *. lia.
Qed.

Lemma chunk_length (d : bytes) (c k : nat) :
  length (chunk d c k) = Nat.min c (length d - k * c).
Proof. unfold chunk. by rewrite length_take, length_drop. Qed.

(** C2. For a file of [S] bytes that reads without error and a chunk size
    [size > 0], [readChunks] returns after emitting exactly
    ceil(S / size) chunks; when [S > 0] the payload of the last chunk has
    [S mod size] bytes if that is not zero and [size] bytes otherwise. A
    final short read is emitted as the last chunk and the read of zero
    bytes at the end of the file emits nothing. *)
Theorem readChunks_count (fuel : nat) (w : world) (name : string)
    (d : bytes) (size : Z) :
  files w !! name = Some (Regular d None) ->
  (0 < size)%Z -> length d < fuel ->
  exists out log,
    readChunks fuel w name make size = Done (out, log) /\
    Z.of_nat (length (queue out))
      = ((Z.of_nat (length d) + size - 1) / size)%Z /\
    (0 < length d ->
     exists s, last (queue out) = Some s /\
       Z.of_nat (length (value s))
       = if (Z.of_nat (length d) mod size =? 0)%Z then size
         else (Z.of_nat (length d) mod size)%Z).
Proof.
  intros Hf Hs Hfuel.
  destruct (readChunks_regular fuel w name d None size Hf Hs Hfuel)
    as [log Hrun].
  eexists _, log. split; [exact Hrun|]. cbn [queue].
  set (c := Z.to_nat size) in *.
  assert (Hc : 0 < c) by lia.
  assert (Hsize : size = Z.of_nat c) by lia.
  pose proof (count_sound d None c Hc eq_refl) as Hn.
  set (n := chunk_count d None c) in *.
  rewrite chunks_length. split.
  - rewrite Hsize. apply Z.div_unique_pos with
      (r := (Z.of_nat (length d) + Z.of_nat c - 1 - Z.of_nat c * Z.of_nat n)%Z);
      nia.
  - intros Hd. clearbody n. destruct n as [|m]; [nia|].
    unfold chunks. rewrite seq_S, fmap_app. cbn [fmap list_fmap Nat.add].
    rewrite last_snoc.
    eexists. split; [reflexivity|]. cbn [value].
    rewrite chunk_length, Hsize.
    rewrite <- Nat2Z.inj_mod.
    pose proof (Nat.div_mod_eq (length d) c) as Hdm.
    pose proof (Nat.mod_upper_bound (length d) c ltac:(lia)) as Hub.
    set (q := length d / c) in *. set (r := length d mod c) in *.
    clearbody q r.
    destruct (Z.eqb_spec (Z.of_nat r) 0) as [Hz|Hz].
    + assert (S m = q) by (apply Nat.le_antisymm; apply Nat.nlt_ge; nia).
      nia.
    + assert (m = q) by (apply Nat.le_antisymm; apply Nat.nlt_ge; nia).
      nia.
Qed.

Lemma readChunks_count_witness :
  exists out log,
    readChunks 11 Sample.w_ten "in" make 4 = Done (out, log) /\
    Z.of_nat (length (queue out))
      = ((Z.of_nat (length Sample.ten) + 4 - 1) / 4)%Z /\
    (0 < length Sample.ten ->
     exists s, last (queue out) = Some s /\
       Z.of_nat (length (value s))
       = if (Z.of_nat (length Sample.ten) mod 4 =? 0)%Z then 4%Z
         else (Z.of_nat (length Sample.ten) mod 4)%Z).
Proof.
  apply (readChunks_count 11 Sample.w_ten "in" Sample.ten 4);
    [reflexivity | lia | vm_compute; lia].
Defined.

Lemma chunk_count_faulty (d : bytes) (b c : nat) :
  b < length d -> chunk_count d (Some b) c = b / c.
Proof.
  intros Hb. unfold chunk_count, limit.
  rewrite Nat.min_l by lia.
  by destruct (Nat.ltb_spec b (length d)); [|lia].
Qed.

Lemma chunks_take (d : bytes) (c n1 n2 : nat) :
  n1 <= n2 -> chunks d c n1 = take n1 (chunks d c n2).
Proof.
  intros Hn. unfold chunks.
  by rewrite <- fmap_take, take_seq, Nat.min_l.
Qed.

Lemma chunks_lookup (d : bytes) (c n k : nat) (s : shard) :
  chunks d c n !! k = Some s ->
  k < n /\ s = Shard (Int.count k) (chunk d c k).
Proof.
  unfold chunks. rewrite list_lookup_fmap.
  destruct (seq 0 n !! k) as [j|] eqn:Hj; [|discriminate].
  apply lookup_seq in Hj as [-> Hk]. intros [= <-]. done.
Qed.

(** C9. [readChunks] with a chunk size [size > 0] returns, and the indices
    of the chunks it has emitted are, in the order of emission, 0, 1, ...,
    count-1: they start at 0, increase by one from each chunk to the next,
    and so have neither gaps nor duplicates. (This holds for every file of
    less than 2^63 bytes, also when the read stops on an error.) *)
Theorem readChunks_indices (fuel : nat) (w : world) (name : string)
    (size : Z) :
  world_ok w -> (0 < size)%Z -> file_size w name < fuel ->
  exists out log,
    readChunks fuel w name make size = Done (out, log) /\
    index <$> queue out = Z.of_nat <$> seq 0 (length (queue out)).
Proof.
  intros Hok Hs Hfuel. unfold file_size in Hfuel.
  destruct (files w !! name) as [[d b|]|] eqn:Hf.
  - destruct (readChunks_regular fuel w name d b size Hf Hs Hfuel)
      as [log Hrun].
    eexists _, log. split; [exact Hrun|]. cbn [queue].
    rewrite chunks_length. apply chunks_index.
    pose proof (chunk_count_le d b (Z.to_nat size) ltac:(lia)).
    specialize (Hok name d b Hf). lia.
  - eexists _, _. split.
    + apply readChunks_missing, Open_None. by right.
    + reflexivity.
  - eexists _, _. split.
    + apply readChunks_missing, Open_None. by left.
    + reflexivity.
Qed.

Lemma readChunks_indices_witness :
  exists out log,
    readChunks 11 Sample.w_ten "in" make 4 = Done (out, log) /\
    index <$> queue out = Z.of_nat <$> seq 0 (length (queue out)).
Proof.
  apply (readChunks_indices 11 Sample.w_ten "in" 4).
  - intros name d b. unfold Sample.w_ten. cbn [files].
    intros H. apply lookup_singleton_Some in H as [_ [= <- _]].
    vm_compute. discriminate.
  - lia.
  - vm_compute. lia.
Defined.

(** C7. With a chunk size [size > 0], [readChunks] returns with its output
    channel closed, whether the file was read to its end, could not be
    opened, or failed in the middle. When the open fails nothing is
    emitted. When the read fails at byte [b], what is emitted is the first
    [b / size] chunks of what the same file emits without the fault, and
    chunk [k] of them has the value of the counter after [k] increments as
    its index and exactly the [size] bytes at offset [k * size] as its
    payload. *)
Theorem readChunks_closes (fuel : nat) (w : world) (name : string)
    (size : Z) :
  (0 < size)%Z -> file_size w name < fuel ->
  exists out log,
    readChunks fuel w name make size = Done (out, log) /\
    closed out = true /\
    (Open w name = None -> queue out = []) /\
    (forall d b,
       files w !! name = Some (Regular d (Some b)) -> b < length d ->
       exists out' log',
         readChunks fuel (with_file w name (Regular d None)) name make size
         = Done (out', log') /\
         queue out = take (b / Z.to_nat size) (queue out') /\
         forall k s, queue out !! k = Some s ->
           s = Shard (Int.count k) (chunk d (Z.to_nat size) k) /\
           length (value s) = Z.to_nat size).
Proof.
  intros Hs Hfuel. unfold file_size in Hfuel.
  assert (Hc : 0 < Z.to_nat size) by lia.
  destruct (files w !! name) as [[d b|]|] eqn:Hf.
  - destruct (readChunks_regular fuel w name d b size Hf Hs Hfuel)
      as [log Hrun].
    eexists _, log. split; [exact Hrun|]. split; [reflexivity|]. split.
    { unfold Open. rewrite Hf. discriminate. }
    intros d' b' [= <- ->] Hb. cbn [queue].
    destruct (readChunks_regular fuel (with_file w name (Regular d None))
                name d None size) as [log' Hrun']; [|done|done|].
    { cbn. apply lookup_insert_eq. }
    eexists _, log'. split; [exact Hrun'|]. cbn [queue].
    rewrite chunk_count_faulty by done.
    pose proof (count_sound d None _ Hc eq_refl) as Hn.
    pose proof (Nat.div_mod_eq b' (Z.to_nat size)) as Hdm.
    pose proof (Nat.mod_upper_bound b' (Z.to_nat size) ltac:(lia)) as Hub.
    split.
    + apply chunks_take.
      apply Nat.nlt_ge. intros Hlt. nia.
    + intros k s Hk. apply chunks_lookup in Hk as [Hk ->].
      split; [reflexivity|]. cbn [value]. rewrite chunk_length. nia.
  - eexists _, _. split; [apply readChunks_missing, Open_None; by right|].
    repeat split; intros; discriminate.
  - eexists _, _. split; [apply readChunks_missing, Open_None; by left|].
    repeat split; intros; discriminate.
Qed.

Lemma readChunks_closes_witness :
  exists out log,
    readChunks 11 Sample.w_bad "in" make 4 = Done (out, log) /\
    closed out = true /\
    (Open Sample.w_bad "in" = None -> queue out = []) /\
    (forall d b,
       files Sample.w_bad !! "in"%string = Some (Regular d (Some b)) ->
       b < length d ->
       exists out' log',
         readChunks 11 (with_file Sample.w_bad "in" (Regular d None)) "in"
                    make 4
         = Done (out', log') /\
         queue out = take (b / Z.to_nat 4) (queue out') /\
         forall k s, queue out !! k = Some s ->
           s = Shard (Int.count k) (chunk d (Z.to_nat 4) k) /\
           length (value s) = Z.to_nat 4).
Proof.
  apply (readChunks_closes 11 Sample.w_bad "in" 4); [lia | vm_compute; lia].
Defined.

(** ** The collector's map *)

Lemma collect_snoc (l : list shard) (s : shard) :
  collect (l ++ [s]) = <[index s := value s]> (collect l).
Proof. unfold collect. by rewrite foldl_snoc. Qed.

Lemma collect_dom (rs : list shard) :
  dom (collect rs) = list_to_set (index <$> rs).
Proof.
  induction rs as [|s rs IH] using rev_ind.
  - unfold collect. cbn. apply dom_empty_L.
  - rewrite collect_snoc, dom_insert_L, IH, fmap_app, list_to_set_app_L.
    cbn. rewrite union_empty_r_L. apply union_comm_L.
Qed.

Lemma collect_size (rs : list shard) :
  NoDup (index <$> rs) -> size (collect rs) = length rs.
Proof.
  intros Hnd. rewrite <- size_dom, collect_dom, size_list_to_set by done.
  apply length_fmap.
Qed.

Lemma collect_lookup (rs : list shard) (s : shard) :
  NoDup (index <$> rs) -> s ∈ rs ->
  collect rs !! index s = Some (value s).
Proof.
  induction rs as [|x rs IH] using rev_ind; intros Hnd Hin.
  - by apply elem_of_nil in Hin.
  - rewrite fmap_app in Hnd. apply NoDup_app in Hnd as (Hnd & Hfresh & _).
    rewrite collect_snoc. apply elem_of_app in Hin as [Hin|Hin].
    + rewrite lookup_insert_ne; [by apply IH|].
      intros Heq. apply (Hfresh (index s)).
      * apply list_elem_of_fmap. by exists s.
      * rewrite <- Heq. cbn. constructor.
    + apply list_elem_of_singleton in Hin as ->. apply lookup_insert_eq.
Qed.

(** ** The write loop *)

Lemma overwrite_nil (old : bytes) (pos : nat) : overwrite old pos [] = old.
Proof.
  unfold overwrite. cbn. rewrite Nat.add_0_r. apply take_drop.
Qed.

Lemma overwrite_app (old : bytes) (pos : nat) (s t : bytes) :
  pos <= length old ->
  overwrite (overwrite old pos s) (pos + length s) t
  = overwrite old pos (s ++ t).
Proof.
  intros Hpos. unfold overwrite.
  assert (Hlen : length (take pos old ++ s) = pos + length s).
  { rewrite length_app, length_take. lia. }
  rewrite (app_assoc (take pos old) s).
  rewrite take_app_length' by (symmetry; exact Hlen).
  rewrite drop_app_ge by lia.
  rewrite Hlen, drop_drop, length_app, <- !app_assoc.
  do 4 f_equal. lia.
Qed.

Lemma overwrite_length (old : bytes) (pos : nat) (s : bytes) :
  pos <= length old -> pos + length s <= length (overwrite old pos s).
Proof.
  intros Hpos. unfold overwrite.
  rewrite !length_app, length_take. lia.
Qed.

Lemma lookups_S (result : gmap Z bytes) (i : Z) (n : nat) :
  lookups result i (S n) = at_index result i :: lookups result (i + 1) n.
Proof.
  unfold lookups. cbn [seq fmap list_fmap]. f_equal.
  - f_equal. lia.
  - rewrite <- fmap_S_seq, <- list_fmap_compose.
    apply list_fmap_ext. intros _ j _. cbn. f_equal. lia.
Qed.

Lemma lookups_length (result : gmap Z bytes) (i : Z) (n : nat) :
  length (lookups result i n) = n.
Proof. unfold lookups. by rewrite length_fmap, length_seq. Qed.

Lemma accepted_length (r : option nat) (s : bytes) :
  length (accepted r s)
  = match r with Some r0 => Nat.min r0 (length s) | None => length s end.
Proof. destruct r; cbn; [apply length_take|done]. Qed.

Lemma fits_one (r : option nat) (s : bytes) :
  fits r [s]
  = match r with Some r0 => length s <=? r0 | None => true end.
Proof. destruct r; cbn; [|done]. by rewrite app_nil_r. Qed.

Lemma WriteString_spec (w : world) (f : wfile) (s old : bytes)
    (b : option nat) :
  files w !! w_name f = Some (Regular old b) ->
  WriteString w f s
  = (World (<[w_name f :=
               Regular (overwrite old (w_pos f) (accepted (room w) s)) b]>
              (files w))
           ((fun r => r - length (accepted (room w) s)) <$> room w)
           (close_err w),
     WFile (w_name f) (w_pos f + length (accepted (room w) s))
           (w_calls f ++ [s]),
     if fits (room w) [s] then None else Some ENOSPC).
Proof.
  intros Hf. unfold WriteString, content, bad_of. rewrite Hf.
  rewrite fits_one, accepted_length.
  destruct (room w) as [r|]; cbn [accepted fmap option_fmap option_map].
  - destruct (Nat.le_gt_cases (length s) r) as [Hle|Hgt].
    + rewrite Nat.min_r by lia. rewrite !take_ge by lia.
      destruct (Nat.ltb_spec (length s) (length s)); [lia|].
      by destruct (Nat.leb_spec (length s) r); [|lia].
    + rewrite Nat.min_l by lia.
      destruct (Nat.ltb_spec r (length s)); [|lia].
      by destruct (Nat.leb_spec (length s) r); [lia|].
  - rewrite take_ge by lia.
    by destruct (Nat.ltb_spec (length s) (length s)); [lia|].
Qed.

Lemma writeLoop_spec (result : gmap Z bytes) (n : nat) :
  forall i w f done log old b,
    files w !! w_name f = Some (Regular old b) ->
    w_pos f <= length old ->
    exists w' f',
      writeLoop n i result w f done log
      = (w', f',
         (if fits (room w) (lookups result i n) then done
          else send done false),
         (if fits (room w) (lookups result i n) then log
          else log ++ [ErrPlain])) /\
      files w' !! w_name f
      = Some (Regular (overwrite old (w_pos f)
                         (accepted (room w)
                            (concat (lookups result i n)))) b) /\
      (forall other, other <> w_name f ->
         files w' !! other = files w !! other) /\
      w_calls f'
      = w_calls f ++ take (attempts (room w) (lookups result i n))
                          (lookups result i n).
Proof.
  induction n as [|n IH]; intros i w f done log old b Hf Hpos.
  - exists w, f. cbn [writeLoop lookups seq fmap list_fmap concat].
    assert (accepted (room w) [] = []) as ->
      by (destruct (room w); [apply take_nil|done]).
    rewrite overwrite_nil, app_nil_r.
    assert (fits (room w) [] = true) as ->.
    { destruct (room w); [|done]. cbn. by destruct (Nat.leb_spec 0 n). }
    done.
  - rewrite lookups_S. set (s := at_index result i).
    set (l := lookups result (i + 1) n).
    cbn [writeLoop]. fold s. rewrite (WriteString_spec w f s old b Hf).
    rewrite fits_one.
    destruct (room w) as [r|] eqn:Hr;
      cbn [fmap option_fmap option_map].
    + destruct (Nat.leb_spec (length s) r) as [Hle|Hgt].
      * (* the string is written whole *)
        assert (Hs : accepted (Some r) s = s) by (cbn; by rewrite take_ge).
        rewrite Hs.
        set (w1 := World _ _ _). set (f1 := WFile _ _ _).
        destruct (IH (i + 1)%Z w1 f1 done log
                     (overwrite old (w_pos f) s) b)
          as (w' & f' & Hrun & Hfile & Hother & Hcalls).
        { subst w1 f1. cbn [files w_name]. apply lookup_insert_eq. }
        { subst f1. cbn [w_pos]. by apply overwrite_length. }
        exists w', f'. fold l in Hrun, Hfile, Hcalls.
        change (room w1) with (Some (r - length s)) in Hrun, Hfile, Hcalls.
        assert (Hfits : fits (Some r) (s :: l)
                        = fits (Some (r - length s)) l).
        { cbn. rewrite length_app.
          destruct (Nat.leb_spec (length s + length (concat l)) r),
            (Nat.leb_spec (length (concat l)) (r - length s)); done || lia. }
        rewrite Hfits. split; [exact Hrun|].
        split; [|split].
        -- change (w_name f) with (w_name f1). rewrite Hfile.
           subst f1. cbn [w_pos]. rewrite overwrite_app by done.
           cbn [accepted concat]. do 3 f_equal.
           by rewrite take_app_ge by lia.
        -- intros other Hne. rewrite Hother by done.
           subst w1. cbn [files]. by apply lookup_insert_ne.
        -- rewrite Hcalls. subst f1. cbn [w_calls attempts].
           destruct (Nat.ltb_spec r (length s)); [lia|].
           by rewrite <- app_assoc.
      * (* the device is full: break *)
        set (w1 := World _ _ _). set (f1 := WFile _ _ _).
        exists w1, f1.
        assert (Hfits : fits (Some r) (s :: l) = false).
        { cbn. rewrite length_app.
          by destruct (Nat.leb_spec (length s + length (concat l)) r);
            [lia|]. }
        rewrite Hfits. split; [done|]. split; [|split].
        -- subst w1. cbn [files]. rewrite lookup_insert_eq.
           cbn [accepted concat]. do 3 f_equal.
           by rewrite take_app_le by lia.
        -- intros other Hne. subst w1. cbn [files].
           by apply lookup_insert_ne.
        -- subst f1. cbn [w_calls attempts].
           by destruct (Nat.ltb_spec r (length s)); [|lia].
    + cbn [accepted].
      set (w1 := World _ _ _). set (f1 := WFile _ _ _).
      destruct (IH (i + 1)%Z w1 f1 done log
                   (overwrite old (w_pos f) s) b)
        as (w' & f' & Hrun & Hfile & Hother & Hcalls).
      { subst w1 f1. cbn [files w_name]. apply lookup_insert_eq. }
      { subst f1. cbn [w_pos]. by apply overwrite_length. }
      exists w', f'. fold l in Hrun, Hfile, Hcalls.
      change (room w1) with (@None nat) in Hrun, Hfile, Hcalls.
      split; [exact Hrun|]. split; [|split].
      * change (w_name f) with (w_name f1). rewrite Hfile.
        subst f1. cbn [w_pos accepted]. by rewrite overwrite_app.
      * intros other Hne. rewrite Hother by done.
        subst w1. cbn [files]. by apply lookup_insert_ne.
      * rewrite Hcalls. subst f1. cbn [w_calls attempts].
        by rewrite <- app_assoc.
Qed.

Lemma attempts_fits (l : list bytes) : forall r,
  fits r l = true -> attempts r l = length l.
Proof.
  induction l as [|s l IH]; intros r Hfit; [done|].
  destruct r as [r|]; cbn [attempts length].
  - cbn in Hfit. rewrite length_app in Hfit.
    apply Nat.leb_le in Hfit.
    destruct (Nat.ltb_spec r (length s)); [lia|].
    rewrite IH; [done|]. cbn. apply Nat.leb_le. lia.
  - by rewrite IH.
Qed.


Lemma overwrite_0 (old s : bytes) :
  overwrite old 0 s = s ++ drop (length s) old.
Proof. unfold overwrite. by rewrite take_0. Qed.

Lemma OpenFile_denied (w : world) (name : string) :
  files w !! name = Some NoAccess -> OpenFile w name = None.
Proof. intros H. unfold OpenFile. by rewrite H. Qed.

Lemma OpenFile_spec (w : world) (name : string) :
  files w !! name <> Some NoAccess ->
  exists w1,
    OpenFile w name = Some (w1, WFile name 0 []) /\
    files w1 !! name = Some (Regular (content w name) (bad_of w name)) /\
    (forall other, other <> name -> files w1 !! other = files w !! other) /\
    room w1 = room w.
Proof.
  intros Hok. unfold OpenFile, content, bad_of.
  destruct (files w !! name) as [[d b|]|] eqn:Hf; [|done|].
  - exists w. by rewrite Hf.
  - eexists. split; [reflexivity|]. cbn [files room].
    split; [apply lookup_insert_eq|]. split; [|done].
    intros other Hne. by apply lookup_insert_ne.
Qed.

(** What a run of the collector does when the output file can be opened. *)
Lemma writeResults_spec (results : chan shard) (w : world)
    (filename : string) (done : chan bool) :
  closed results = true ->
  files w !! filename <> Some NoAccess ->
  exists c,
    writeResults results w filename done = Done c /\
    files (c_world c) !! filename
    = Some (Regular
              (overwrite (content w filename) 0
                 (accepted (room w)
                    (concat (payloads (collect (queue results))))))
              (bad_of w filename)) /\
    (forall other, other <> filename ->
       files (c_world c) !! other = files w !! other) /\
    c_calls c
    = take (attempts (room w) (payloads (collect (queue results))))
           (payloads (collect (queue results))) /\
    queue (c_done c)
    = queue done
      ++ (if fits (room w) (payloads (collect (queue results)))
          then [] else [false])
      ++ true :: (if close_err w then [false] else []).
Proof.
  intros Hclosed Hok. unfold writeResults. rewrite Hclosed.
  destruct (OpenFile_spec w filename Hok)
    as (w1 & -> & Hf1 & Hother1 & Hroom).
  set (result := collect (queue results)).
  destruct (writeLoop_spec result (size result) 0 w1
              (WFile filename 0 []) done [] _ _ Hf1 ltac:(cbn; lia))
    as (w2 & f2 & Hrun & Hf2 & Hother2 & Hcalls).
  fold (payloads result) in Hrun, Hf2, Hcalls.
  rewrite Hrun. rewrite Hroom in *. cbn [w_name w_pos w_calls app] in *.
  destruct (close_err w); eexists; (split; [reflexivity|]);
    cbn [c_world c_calls c_done];
    (split; [exact Hf2|]);
    (split; [intros other Hne; by rewrite Hother2, Hother1|]);
    (split; [exact Hcalls|]);
    destruct (fits (room w) (payloads result));
    cbn [send queue app]; by rewrite <- ?app_assoc.
Qed.



(** C10. When a write fails, the collector sends [false] on [done], leaves
    the loop, and then also sends [true] on the same channel: for such a
    run the values sent on [done] are [false] followed by [true]. *)
Theorem writeResults_false_then_true (results : chan shard) (w : world)
    (filename : string) (done : chan bool) :
  closed results = true ->
  files w !! filename <> Some NoAccess ->
  fits (room w) (payloads (collect (queue results))) = false ->
  exists c rest,
    writeResults results w filename done = Done c /\
    queue (c_done c) = queue done ++ false :: true :: rest.
Proof.
  intros Hclosed Hok Hfit.
  destruct (writeResults_spec results w filename done Hclosed Hok)
    as (c & Hrun & _ & _ & _ & Hdone).
  rewrite Hfit in Hdone. eexists c, _. split; [exact Hrun|exact Hdone].
Qed.

Lemma writeResults_false_then_true_witness :
  exists c rest,
    writeResults Sample.two Sample.w_full "out" make = Done c /\
    queue (c_done c) = queue (@make bool) ++ false :: true :: rest.
Proof.
  apply (writeResults_false_then_true Sample.two Sample.w_full "out" make);
    [reflexivity | vm_compute; discriminate | reflexivity].
Defined.

(** The run of the witness above: the second write fails after one byte,
    and [done] carries [false] and then [true]. *)
Example writeResults_full_device :
  exists c,
    writeResults Sample.two Sample.w_full "out" make = Done c /\
    c_calls c = [Sample.B "AB"; Sample.B "CD"] /\
    content (c_world c) "out" = Sample.B "ABC" /\
    queue (c_done c) = [false; true].
Proof. eexists. vm_compute. done. Qed.

(** C3. The collector looks up the keys 0, 1, ..., count-1, where count is
    the number of entries of its map, whatever the indices it collected:
    call number [j] of [WriteString] has [j < count] and writes result[j],
    so a chunk whose index is not below count is never written, and for
    an index [j] missing from the map the lookup yields the empty string
    in place of a payload. When no write fails there are exactly count
    calls, and [true] is sent on [done]. *)
Theorem writeResults_by_count (results : chan shard) (w : world)
    (filename : string) (done : chan bool) :
  closed results = true ->
  files w !! filename <> Some NoAccess ->
  exists c,
    writeResults results w filename done = Done c /\
    (forall j s, c_calls c !! j = Some s ->
       j < size (collect (queue results)) /\
       s = at_index (collect (queue results)) (Z.of_nat j) /\
       (collect (queue results) !! Z.of_nat j = None -> s = [])) /\
    (room w = None ->
     length (c_calls c) = size (collect (queue results)) /\
     exists rest, queue (c_done c) = queue done ++ true :: rest).
Proof.
  intros Hclosed Hok.
  destruct (writeResults_spec results w filename done Hclosed Hok)
    as (c & Hrun & _ & _ & Hcalls & Hdone).
  exists c. split; [exact Hrun|]. split.
  - intros j s Hj. rewrite Hcalls in Hj.
    apply lookup_take_Some in Hj as [Hj _].
    unfold payloads, lookups in Hj. rewrite list_lookup_fmap in Hj.
    destruct (seq 0 _ !! j) as [j'|] eqn:Hseq; [|discriminate].
    apply lookup_seq in Hseq as [-> Hlt].
    cbn [fmap option_fmap option_map Nat.add] in Hj.
    rewrite Z.add_0_l in Hj. injection Hj as <-. split; [exact Hlt|]. split; [done|].
    intros Hnone. unfold at_index. by rewrite Hnone.
  - intros Hroom. rewrite Hroom in *. cbn [fits] in Hdone. split.
    + rewrite Hcalls, attempts_fits by done.
      rewrite firstn_all. unfold payloads. apply lookups_length.
    + eexists. exact Hdone.
Qed.

Lemma writeResults_by_count_witness :
  exists c,
    writeResults Sample.gap Sample.w_old "out" make = Done c /\
    (forall j s, c_calls c !! j = Some s ->
       j < size (collect (queue Sample.gap)) /\
       s = at_index (collect (queue Sample.gap)) (Z.of_nat j) /\
       (collect (queue Sample.gap) !! Z.of_nat j = None -> s = [])) /\
    (room Sample.w_old = None ->
     length (c_calls c) = size (collect (queue Sample.gap)) /\
     exists rest, queue (c_done c) = queue (@make bool) ++ true :: rest).
Proof.
  apply (writeResults_by_count Sample.gap Sample.w_old "out" make);
    [reflexivity | vm_compute; discriminate].
Defined.

(** With the indices 0 and 2 collected, count is 2: the collector writes
    result[0] and the empty string for the missing index 1, never writes
    the chunk with index 2, and sends [true]. *)
Example writeResults_gap :
  exists c,
    writeResults Sample.gap (World ∅ None false) "out" make = Done c /\
    c_calls c = [Sample.B "A"; []] /\
    content (c_world c) "out" = Sample.B "A" /\
    queue (c_done c) = [true].
Proof. eexists. vm_compute. done. Qed.

(** The flags of [os.OpenFile] are O_WRONLY and O_CREATE, without O_TRUNC:
    an output file of ten bytes into which this run writes two bytes still
    has ten bytes, the last eight of them from before the run. *)
Lemma writeResults_keeps_old_tail :
  exists c,
    writeResults Sample.one Sample.w_old "out" make = Done c /\
    queue (c_done c) = [true] /\
    concat (c_calls c) = Sample.B "AB" /\
    content (c_world c) "out" = Sample.B "AB23456789" /\
    content (c_world c) "out" <> concat (c_calls c).
Proof. eexists. vm_compute. repeat split. discriminate. Qed.

(** C5, as the code has it. The collector opens the output file for
    writing, creating it if it is missing, and does not truncate it: after
    the run the file holds the bytes written in this run followed by what
    the file held before beyond their length (nothing, for a file that was
    missing or was not longer). If the open fails the collector sends
    [false] on [done] at once and writes nothing. *)
Theorem writeResults_overwrites (results : chan shard) (w : world)
    (filename : string) (done : chan bool) :
  closed results = true ->
  (files w !! filename = Some NoAccess ->
   writeResults results w filename done
   = Done (Collected w (send done false) [ErrPlain] [])) /\
  (files w !! filename <> Some NoAccess ->
   exists c written,
     writeResults results w filename done = Done c /\
     written
     = accepted (room w) (concat (payloads (collect (queue results)))) /\
     (room w = None -> written = concat (c_calls c)) /\
     content (c_world c) filename
     = written ++ drop (length written) (content w filename) /\
     (length (content w filename) <= length written ->
      content (c_world c) filename = written)).
Proof.
  intros Hclosed. split.
  - intros Hno. unfold writeResults.
    by rewrite Hclosed, (OpenFile_denied w filename Hno).
  - intros Hok.
    destruct (writeResults_spec results w filename done Hclosed Hok)
      as (c & Hrun & Hfile & _ & Hcalls & _).
    eexists c, _. split; [exact Hrun|]. split; [reflexivity|].
    assert (Hcontent :
      content (c_world c) filename
      = accepted (room w) (concat (payloads (collect (queue results))))
        ++ drop (length (accepted (room w)
                   (concat (payloads (collect (queue results))))))
             (content w filename)).
    { unfold content at 1. by rewrite Hfile, overwrite_0. }
    split; [|split].
    + intros Hroom. rewrite Hroom in *. cbn [accepted].
      by rewrite Hcalls, attempts_fits, firstn_all.
    + exact Hcontent.
    + intros Hlen. rewrite Hcontent, drop_ge by done. apply app_nil_r.
Qed.

Lemma writeResults_overwrites_witness :
  (files Sample.w_old !! "out"%string = Some NoAccess ->
   writeResults Sample.one Sample.w_old "out" make
   = Done (Collected Sample.w_old (send make false) [ErrPlain] [])) /\
  (files Sample.w_old !! "out"%string <> Some NoAccess ->
   exists c written,
     writeResults Sample.one Sample.w_old "out" make = Done c /\
     written
     = accepted (room Sample.w_old)
         (concat (payloads (collect (queue Sample.one)))) /\
     (room Sample.w_old = None -> written = concat (c_calls c)) /\
     content (c_world c) "out"
     = written ++ drop (length written) (content Sample.w_old "out") /\
     (length (content Sample.w_old "out") <= length written ->
      content (c_world c) "out" = written)).
Proof.
  apply (writeResults_overwrites Sample.one Sample.w_old "out" make).
  reflexivity.
Defined.

(** ** The worker pool *)

(** What the pool holds: the results sent, those in the workers' hands, and
    the results of the chunks still to be received. *)
Lemma turn_bag (process : shard -> shard) (p : pool) (i : nat) :
  resultQ (turn process p i) ++ omap id (hands (turn process p i))
    ++ (process <$> chunkQ (turn process p i))
  ≡ₚ resultQ p ++ omap id (hands p) ++ (process <$> chunkQ p).
Proof.
  unfold turn. destruct (hands p !! i) as [[r|]|] eqn:Hi; [| |done].
  - pose proof (lookup_lt_Some _ _ _ Hi) as Hlt.
    pose proof (take_drop_middle _ _ _ Hi) as Hsplit.
    cbn [resultQ hands chunkQ].
    rewrite insert_take_drop by done.
    remember (take i (hands p)) as l1. remember (drop (S i) (hands p)) as l2.
    rewrite <- Hsplit, !omap_app. cbn [omap list_omap id].
    rewrite <- !app_assoc. f_equiv. cbn [app].
    apply Permutation_middle.
  - destruct (chunkQ p) as [|read rest] eqn:Hq; [by rewrite Hq|].
    pose proof (lookup_lt_Some _ _ _ Hi) as Hlt.
    pose proof (take_drop_middle _ _ _ Hi) as Hsplit.
    cbn [resultQ hands chunkQ fmap list_fmap].
    rewrite insert_take_drop by done.
    remember (take i (hands p)) as l1. remember (drop (S i) (hands p)) as l2.
    rewrite <- Hsplit, !omap_app. cbn [omap list_omap id].
    f_equiv. rewrite <- !app_assoc. f_equiv. cbn [app].
    apply Permutation_middle.
Qed.

Lemma play_bag (process : shard -> shard) (schedule : list nat) :
  forall p,
    resultQ (play process schedule p)
      ++ omap id (hands (play process schedule p))
      ++ (process <$> chunkQ (play process schedule p))
    ≡ₚ resultQ p ++ omap id (hands p) ++ (process <$> chunkQ p).
Proof.
  induction schedule as [|i schedule IH]; intros p; [done|].
  cbn [play foldl]. fold (play process schedule (turn process p i)).
  rewrite IH. apply turn_bag.
Qed.

Lemma turn_hands_length (process : shard -> shard) (p : pool) (i : nat) :
  length (hands (turn process p i)) = length (hands p).
Proof.
  unfold turn. destruct (hands p !! i) as [[r|]|]; [|destruct (chunkQ p)|];
    cbn [hands]; by rewrite ?length_insert.
Qed.

Lemma play_hands_length (process : shard -> shard) (schedule : list nat) :
  forall p, length (hands (play process schedule p)) = length (hands p).
Proof.
  induction schedule as [|i schedule IH]; intros p; [done|].
  cbn [play foldl]. fold (play process schedule (turn process p i)).
  by rewrite IH, turn_hands_length.
Qed.

Lemma omap_resting (d : bool) (hs : list (option shard)) :
  forallb (fun h => resting h && d) hs = true -> omap id hs = [].
Proof.
  induction hs as [|[r|] hs IH]; cbn; [done|discriminate|].
  destruct d; [exact IH|discriminate].
Qed.

Lemma joined_drained (p : pool) :
  hands p <> [] -> joined p = true ->
  chunkQ p = [] /\ omap id (hands p) = [].
Proof.
  unfold joined. intros Hne Hj. split.
  - destruct (hands p) as [|h hs]; [done|].
    cbn in Hj. apply andb_true_iff in Hj as [Hh _].
    apply andb_true_iff in Hh as [_ Hd].
    unfold drained in Hd. by destruct (chunkQ p).
  - by apply omap_resting in Hj.
Qed.

(** Whatever the schedule, when the workers have all left their loops the
    results sent are those of the chunks, in some order. *)
Lemma play_joined (process : shard -> shard) (schedule : list nat)
    (pending : list shard) (num : nat) :
  0 < num -> completes process schedule pending num ->
  resultQ (play process schedule (start pending num))
  ≡ₚ process <$> pending.
Proof.
  unfold completes. intros Hnum Hj.
  pose proof (play_bag process schedule (start pending num)) as Hbag.
  destruct (joined_drained (play process schedule (start pending num)))
    as [Hq Hh]; [|exact Hj|].
  { intros Hnil. apply (f_equal length) in Hnil.
    rewrite play_hands_length in Hnil. cbn in Hnil.
    rewrite length_replicate in Hnil. lia. }
  rewrite Hq, Hh in Hbag. cbn in Hbag. rewrite app_nil_r in Hbag.
  rewrite Hbag. clear.
  induction num as [|num IH]; [done|exact IH].
Qed.

Lemma play_solo (process : shard -> shard) (hs : list (option shard)) :
  forall pending sent,
    play process (replicate (2 * length pending) 0)
         (Pool pending (None :: hs) sent)
    = Pool [] (None :: hs) (sent ++ (process <$> pending)).
Proof.
  induction pending as [|read rest IH]; intros sent.
  - cbn. by rewrite app_nil_r.
  - replace (2 * length (read :: rest)) with (S (S (2 * length rest)))
      by (cbn [length]; lia).
    change (play process (replicate (S (S (2 * length rest))) 0)
                 (Pool (read :: rest) (None :: hs) sent))
      with (play process (replicate (2 * length rest) 0)
                 (turn process
                    (turn process (Pool (read :: rest) (None :: hs) sent) 0)
                    0)).
    change (turn process (Pool (read :: rest) (None :: hs) sent) 0)
      with (Pool rest (Some (process read) :: hs) sent).
    change (turn process (Pool rest (Some (process read) :: hs) sent) 0)
      with (Pool rest (None :: hs) (sent ++ [process read])).
    rewrite IH. by rewrite <- app_assoc.
Qed.

Lemma solo_completes (process : shard -> shard) (pending : list shard)
    (num : nat) :
  0 < num -> completes process (solo pending) pending num.
Proof.
  intros Hnum. destruct num as [|num]; [lia|].
  unfold completes, solo, start. cbn [replicate].
  rewrite play_solo. unfold joined. cbn. clear Hnum.
  induction num as [|num IH]; [done|exact IH].
Qed.

Lemma play_idle (process : shard -> shard) (num : nat)
    (schedule : list nat) :
  play process schedule (start [] num) = start [] num.
Proof.
  induction schedule as [|i schedule IH]; [done|].
  cbn [play foldl].
  assert (turn process (start [] num) i = start [] num) as ->; [|exact IH].
  unfold turn, start. cbn [hands chunkQ].
  destruct (replicate num None !! i) as [h|] eqn:Hi; [|done].
  apply lookup_replicate in Hi as [-> _]. done.
Qed.

Lemma start_idle_joined (num : nat) : joined (start [] num) = true.
Proof.
  unfold joined, start. cbn.
  induction num as [|num IH]; [done|exact IH].
Qed.

(** ** The whole pipeline *)

Lemma chunk_count_healthy (d : bytes) (c : nat) :
  chunk_count d None c = ceil_div (length d) c.
Proof.
  unfold chunk_count, limit.
  by destruct (Nat.ltb_spec (length d) (length d)); [lia|].
Qed.

Lemma concat_chunks (d : bytes) (c n : nat) :
  concat (chunk d c <$> seq 0 n) = take (n * c) d.
Proof.
  induction n as [|n IH]; [by rewrite take_0|].
  rewrite seq_S, fmap_app, concat_app, IH. cbn [fmap list_fmap concat].
  rewrite app_nil_r. unfold chunk. cbn [Nat.add].
  rewrite take_take_drop. f_equal. lia.
Qed.

Lemma produced_values (d : bytes) (size : Z) :
  (0 < size)%Z -> concat (value <$> produced d size) = d.
Proof.
  intros Hs. unfold produced, chunks.
  rewrite <- list_fmap_compose.
  change (value ∘ _) with (chunk d (Z.to_nat size)).
  rewrite concat_chunks. apply take_ge.
  pose proof (count_sound d None (Z.to_nat size) ltac:(lia) eq_refl) as H.
  rewrite chunk_count_healthy in H. lia.
Qed.

Lemma produced_index (d : bytes) (size : Z) :
  (0 < size)%Z -> (Z.of_nat (length d) <= Int.max)%Z ->
  index <$> produced d size
  = Z.of_nat <$> seq 0 (length (produced d size)).
Proof.
  intros Hs Hd. unfold produced. rewrite chunks_length.
  apply chunks_index.
  pose proof (chunk_count_le d None (Z.to_nat size) ltac:(lia)) as H.
  rewrite chunk_count_healthy in H. lia.
Qed.

(** The strings the collector looks up, for results that arrive in any
    order and carry the indices 0, ..., n-1. *)
Lemma payloads_sorted (rs ps : list shard) :
  rs ≡ₚ ps ->
  index <$> ps = Z.of_nat <$> seq 0 (length ps) ->
  payloads (collect rs) = value <$> ps.
Proof.
  intros Hperm Hidx.
  assert (Hnd : NoDup (index <$> rs)).
  { rewrite Hperm, Hidx. apply NoDup_fmap_2; [apply _|apply NoDup_seq]. }
  unfold payloads, lookups.
  rewrite collect_size, Hperm by done.
  apply list_eq. intros j. rewrite !list_lookup_fmap.
  destruct (ps !! j) as [s|] eqn:Hj.
  - pose proof (lookup_lt_Some _ _ _ Hj) as Hlt.
    rewrite (lookup_seq_lt 0 (length ps) j Hlt). cbn.
    f_equal. unfold at_index.
    assert (Hs : index s = Z.of_nat j).
    { assert ((index <$> ps) !! j = Some (index s)) as H
        by (by rewrite list_lookup_fmap, Hj).
      rewrite Hidx, list_lookup_fmap, lookup_seq_lt in H by done.
      by injection H as <-. }
    rewrite Z.add_0_l, <- Hs, (collect_lookup rs s Hnd); [done|].
    rewrite Hperm. by eapply list_elem_of_lookup_2.
  - apply lookup_ge_None in Hj.
    by rewrite lookup_seq_ge.
Qed.

Lemma finish_spec (w : world) (outputFile : string) (read : chan shard)
    (sent : list shard) :
  files w !! outputFile <> Some NoAccess ->
  exists c,
    finish w outputFile read sent
    = Done (Outcome (c_world c) read (Chan sent true) (c_done c)
              (c_calls c)
              (if fits (room w) (payloads (collect sent))
               then [Success] else [])) /\
    files (c_world c) !! outputFile
    = Some (Regular
              (overwrite (content w outputFile) 0
                 (accepted (room w) (concat (payloads (collect sent)))))
              (bad_of w outputFile)) /\
    c_calls c
    = take (attempts (room w) (payloads (collect sent)))
           (payloads (collect sent)) /\
    queue (c_done c)
    = (if fits (room w) (payloads (collect sent)) then [] else [false])
      ++ true :: (if close_err w then [false] else []).
Proof.
  intros Hok.
  destruct (writeResults_spec (Chan sent true) w outputFile make eq_refl Hok)
    as (c & Hrun & Hfile & _ & Hcalls & Hdone).
  cbn [queue app] in Hfile, Hcalls, Hdone. unfold finish, close.
  cbn [queue]. rewrite Hrun, Hdone.
  exists c. split; [|done].
  by destruct (fits (room w) (payloads (collect sent))).
Qed.

Lemma payloads_empty : payloads (collect []) = [].
Proof. reflexivity. Qed.

(** C6. For an input path that does not exist, and an output path that
    can be opened, [ProcessFile] returns for every schedule and every
    number of workers: the producer has emitted no chunk and has closed
    its channel, the collector writes nothing (an output file that did not
    exist is created, empty), the first value on [done] is [true], and the
    caller prints the success message although the producer failed. *)
Theorem ProcessFile_missing_input (fuel : nat) (schedule : list nat)
    (w : world) (inputFile outputFile : string)
    (process : shard -> shard) (num size : Z) :
  files w !! inputFile = None ->
  files w !! outputFile <> Some NoAccess ->
  (0 <= num)%Z ->
  exists o rest,
    ProcessFile fuel schedule w inputFile outputFile process num size
    = Done o /\
    readChunks fuel w inputFile make size
    = Done (o_read o, [ErrOpening]) /\
    o_read o = Chan [] true /\
    o_calls o = [] /\
    (files w !! outputFile = None ->
     files (o_world o) !! outputFile = Some (Regular [] None)) /\
    content (o_world o) outputFile = content w outputFile /\
    queue (o_done o) = true :: rest /\
    o_stdout o = [Success].
Proof.
  intros Hin Hout Hnum.
  assert (Hread : readChunks fuel w inputFile make size
                  = Done (Chan [] true, [ErrOpening])).
  { apply readChunks_missing, Open_None. by left. }
  unfold ProcessFile. rewrite Hread.
  destruct (Z.ltb_spec num 0) as [|_]; [lia|].
  cbn [queue]. rewrite play_idle, start_idle_joined.
  destruct (finish_spec w outputFile (Chan [] true) [] Hout)
    as (c & Hfin & Hfile & Hcalls & Hdone).
  rewrite payloads_empty in *.
  assert (Hfit : fits (room w) [] = true).
  { by destruct (room w). }
  assert (Hacc : accepted (room w) (concat []) = []).
  { destruct (room w); [apply take_nil|done]. }
  rewrite Hfit in *. rewrite Hacc, overwrite_nil in Hfile.
  rewrite take_nil in Hcalls. cbn [app] in Hdone.
  eexists _, _. split; [exact Hfin|]. cbn [o_read o_calls o_world o_done
                                           o_stdout].
  split; [done|]. split; [done|]. split; [done|]. split; [|split; [|done]].
  - intros Hnew. rewrite Hfile. unfold content, bad_of. by rewrite Hnew.
  - unfold content at 1. by rewrite Hfile.
Qed.

Lemma ProcessFile_missing_input_witness :
  exists o rest,
    ProcessFile 0 [1; 0] Sample.w_ten "nowhere" "out" Sample.identity 2 4
    = Done o /\
    readChunks 0 Sample.w_ten "nowhere" make 4
    = Done (o_read o, [ErrOpening]) /\
    o_read o = Chan [] true /\
    o_calls o = [] /\
    (files Sample.w_ten !! "out"%string = None ->
     files (o_world o) !! "out"%string = Some (Regular [] None)) /\
    content (o_world o) "out" = content Sample.w_ten "out" /\
    queue (o_done o) = true :: rest /\
    o_stdout o = [Success].
Proof.
  apply (ProcessFile_missing_input 0 [1; 0] Sample.w_ten "nowhere" "out"
           Sample.identity 2 4);
    [reflexivity | vm_compute; discriminate | lia].
Defined.

(** With the identity transform and an output file that exists and is
    longer than the input, the run reports success and the output file is
    not the input: the collector does not truncate it, and its old bytes
    after the second one are still there. *)
Lemma ProcessFile_keeps_old_tail :
  exists o,
    ProcessFile 3 [0; 0] Sample.w_over "in" "out" Sample.identity 1 4
    = Done o /\
    o_stdout o = [Success] /\
    concat (o_calls o) = content Sample.w_over "in" /\
    content (o_world o) "out" = Sample.B "AB23456789" /\
    content (o_world o) "out" <> content Sample.w_over "in".
Proof. eexists. vm_compute. repeat split. discriminate. Qed.

(** C1, as the code has it. For a file that reads without error, a chunk
    size [size > 0], a number of workers [num > 0], a transform that keeps
    the index of its chunk, and an output device that takes all the
    bytes: there are schedules that run the workers to the end, and for
    every such schedule (whatever the order in which the results were
    delivered) [ProcessFile] returns and the strings the collector has
    written are the payloads of the transformed chunks in ascending order
    of index. With the identity transform the bytes written are the bytes
    of the input; they replace the content of the output file from its
    start, without truncation, so that the output file ends as the input
    followed by what it held before beyond the length of the input: it is
    the input exactly when it was missing or not longer than the input. *)
Theorem ProcessFile_order (fuel : nat) (w : world)
    (inputFile outputFile : string) (process : shard -> shard)
    (num size : Z) (d : bytes) :
  world_ok w ->
  files w !! inputFile = Some (Regular d None) ->
  files w !! outputFile <> Some NoAccess ->
  (0 < num)%Z -> (0 < size)%Z -> length d < fuel ->
  (forall s, index (process s) = index s) ->
  fits (room w) (value <$> (process <$> produced d size)) = true ->
  completes process (solo (produced d size)) (produced d size)
            (Z.to_nat num) /\
  forall schedule,
    completes process schedule (produced d size) (Z.to_nat num) ->
    exists o rest,
      ProcessFile fuel schedule w inputFile outputFile process num size
      = Done o /\
      queue (o_read o) = produced d size /\
      queue (o_results o) ≡ₚ process <$> produced d size /\
      o_calls o = value <$> (process <$> produced d size) /\
      queue (o_done o) = true :: rest /\
      ((forall s, process s = s) ->
       concat (o_calls o) = d /\
       content (o_world o) outputFile
       = d ++ drop (length d) (content w outputFile) /\
       (content (o_world o) outputFile = d <->
        length (content w outputFile) <= length d)).
Proof.
  intros Hok Hin Hout Hnum Hsize Hfuel Hproc Hfit.
  split; [apply solo_completes; lia|].
  intros schedule Hsched.
  destruct (readChunks_regular fuel w inputFile d None size Hin Hsize Hfuel)
    as [log Hread].
  rewrite chunk_count_healthy in Hread. fold (produced d size) in Hread.
  unfold ProcessFile. rewrite Hread.
  destruct (Z.ltb_spec num 0) as [|_]; [lia|].
  cbn [queue]. unfold completes in Hsched. rewrite Hsched.
  set (sent := resultQ (play process schedule
                          (start (produced d size) (Z.to_nat num)))).
  assert (Hperm : sent ≡ₚ process <$> produced d size)
    by (apply play_joined; [lia|exact Hsched]).
  assert (Hpay : payloads (collect sent)
                 = value <$> (process <$> produced d size)).
  { apply payloads_sorted; [exact Hperm|].
    rewrite length_fmap, <- list_fmap_compose.
    rewrite (list_fmap_ext (index ∘ process) index (produced d size))
      by (intros; apply Hproc).
    apply produced_index; [done|]. by apply (Hok inputFile d None). }
  destruct (finish_spec w outputFile (Chan (produced d size) true) sent Hout)
    as (c & Hfin & Hfile & Hcalls & Hdone).
  rewrite Hpay in *. rewrite Hfit in *.
  rewrite attempts_fits, firstn_all in Hcalls by done.
  cbn [app] in Hdone.
  eexists _, _. split; [exact Hfin|].
  cbn [o_read o_results o_calls o_world o_done queue].
  split; [done|]. split; [exact Hperm|]. split; [exact Hcalls|].
  split; [exact Hdone|].
  intros Hid.
  assert (Hd : concat (value <$> (process <$> produced d size)) = d).
  { rewrite (list_fmap_ext process id (produced d size))
      by (intros; apply Hid).
    rewrite list_fmap_id. by apply produced_values. }
  rewrite Hcalls. split; [exact Hd|].
  assert (Hacc : accepted (room w) d = d).
  { destruct (room w) as [r|]; [|done]. cbn in Hfit |- *.
    rewrite Hd in Hfit. apply Nat.leb_le in Hfit. by apply take_ge. }
  assert (Hcontent : content (c_world c) outputFile
                     = d ++ drop (length d) (content w outputFile)).
  { unfold content at 1. by rewrite Hfile, Hd, overwrite_0, Hacc. }
  split; [exact Hcontent|]. rewrite Hcontent. split.
  - intros Heq. apply (f_equal length) in Heq.
    rewrite length_app, length_drop in Heq. lia.
  - intros Hlen. rewrite drop_ge by done. apply app_nil_r.
Qed.

Lemma ProcessFile_order_witness :
  completes Sample.identity (solo (produced Sample.ten 4))
            (produced Sample.ten 4) (Z.to_nat 2) /\
  forall schedule,
    completes Sample.identity schedule (produced Sample.ten 4)
              (Z.to_nat 2) ->
    exists o rest,
      ProcessFile 11 schedule Sample.w_ten "in" "out" Sample.identity 2 4
      = Done o /\
      queue (o_read o) = produced Sample.ten 4 /\
      queue (o_results o) ≡ₚ Sample.identity <$> produced Sample.ten 4 /\
      o_calls o = value <$> (Sample.identity <$> produced Sample.ten 4) /\
      queue (o_done o) = true :: rest /\
      ((forall s, Sample.identity s = s) ->
       concat (o_calls o) = Sample.ten /\
       content (o_world o) "out"
       = Sample.ten
         ++ drop (length Sample.ten) (content Sample.w_ten "out") /\
       (content (o_world o) "out" = Sample.ten <->
        length (content Sample.w_ten "out") <= length Sample.ten)).
Proof.
  apply (ProcessFile_order 11 Sample.w_ten "in" "out" Sample.identity 2 4
           Sample.ten).
  - intros name d b. unfold Sample.w_ten. cbn [files].
    intros H. apply lookup_singleton_Some in H as [_ [= <- _]].
    vm_compute. discriminate.
  - reflexivity.
  - vm_compute. discriminate.
  - lia.
  - lia.
  - vm_compute. lia.
  - reflexivity.
  - reflexivity.
Defined.

(** The scenario of the specification, with the results delivered in the
    order 1, 0, 2: the collector writes "ABCD", "EFGH", "IJ". *)
Example ProcessFile_ten :
  exists o,
    ProcessFile 11 [0; 1; 1; 0; 0; 0] Sample.w_ten "in" "out"
                Sample.identity 2 4 = Done o /\
    index <$> queue (o_read o) = [0; 1; 2]%Z /\
    index <$> queue (o_results o) = [1; 0; 2]%Z /\
    o_calls o = [Sample.B "ABCD"; Sample.B "EFGH"; Sample.B "IJ"] /\
    content (o_world o) "out" = Sample.ten /\
    queue (o_done o) = [true] /\
    o_stdout o = [Success].
Proof. eexists. vm_compute. done. Qed.

(** ** ReadValue *)

Lemma uniform_chunk (c : nat) (records : list bytes) :
  uniform records c ->
  forall i r, records !! i = Some r ->
    take c (drop (i * c) (concat records)) = r.
Proof.
  induction 1 as [|r0 rs Hr0 Hrs IH]; intros i r Hi; [done|].
  destruct i as [|i]; cbn [concat Nat.mul].
  - injection Hi as ->. rewrite drop_0. by apply take_app_length'.
  - rewrite drop_app_ge by lia. rewrite Hr0.
    replace (c + i * c - c) with (i * c) by lia. by apply IH.
Qed.

Lemma uniform_length (c : nat) (records : list bytes) :
  uniform records c -> length (concat records) = length records * c.
Proof.
  induction 1 as [|r0 rs Hr0 Hrs IH]; [done|].
  cbn [concat length Nat.mul]. rewrite length_app. lia.
Qed.

(** As long as [index * size] stays in the range of int64, [ReadValue]
    returns record [index] of a file of uniform records for every index
    of a record, and nil for every other index. *)
Lemma ReadValue_in_range (w : world) (filePath : string)
    (records : list bytes) (index size : Z) :
  files w !! filePath = Some (Regular (concat records) None) ->
  (0 < size)%Z -> uniform records (Z.to_nat size) ->
  (Int.min <= index * size <= Int.max)%Z ->
  (forall r, records !! Z.to_nat index = Some r -> (0 <= index)%Z ->
     exists log, ReadValue w filePath index size = Done (Some r, log)) /\
  ((index < 0 \/ Z.of_nat (length records) <= index)%Z ->
     exists log, ReadValue w filePath index size = Done (None, log)).
Proof.
  intros Hf Hsize Huni Hrange.
  unfold ReadValue, Open. rewrite Hf.
  destruct (Z.ltb_spec size 0) as [|_]; [lia|].
  unfold Int.mul. rewrite wrap_small by exact Hrange.
  unfold ReadAt. cbn [r_data r_bad limit]. rewrite firstn_all.
  pose proof (uniform_length _ _ Huni) as Hlen.
  split.
  - intros r Hr Hidx.
    destruct (Z.ltb_spec (index * size) 0) as [|_]; [nia|].
    replace (Z.to_nat (index * size))
      with (Z.to_nat index * Z.to_nat size) by nia.
    rewrite (uniform_chunk _ _ Huni _ r Hr).
    assert (length r = Z.to_nat size) as Hrlen.
    { eapply Forall_lookup_1 in Huni; [exact Huni|exact Hr]. }
    rewrite Hrlen, Nat.sub_diag. cbn [replicate]. rewrite app_nil_r.
    destruct (Z.ltb_spec (Z.of_nat (Z.to_nat size)) size); [lia|].
    eexists. reflexivity.
  - intros [Hneg|Hbig].
    + destruct (Z.ltb_spec (index * size) 0) as [_|]; [|nia].
      destruct (Z.ltb_spec (Z.of_nat 0) size); [|lia].
      eexists. reflexivity.
    + destruct (Z.ltb_spec (index * size) 0) as [|_]; [nia|].
      rewrite drop_ge by nia. rewrite take_nil. cbn [length].
      destruct (Z.ltb_spec (Z.of_nat 0) size); [|lia].
      eexists. reflexivity.
Qed.

(** C8, where the code departs from it. [ReadValue] computes the offset
    [index * size] in int64. For a file of one record of 4 bytes and
    [index = 2^62] the product 2^64 wraps around to 0, so the read does
    not fail although [index >= N]: it returns record 0. The same happens
    for the negative index [-2^62]. *)
Theorem ReadValue_wraps :
  Int.mul (2 ^ 62) 4 = 0%Z /\
  ReadValue Sample.w_rec "db" (2 ^ 62) 4
  = Done (Some (Sample.B "ABCD"), []) /\
  ReadValue Sample.w_rec "db" (- 2 ^ 62) 4
  = Done (Some (Sample.B "ABCD"), []) /\
  ReadValue Sample.w_rec "db" 0 4 = Done (Some (Sample.B "ABCD"), []) /\
  ReadValue Sample.w_rec "db" 1 4 = Done (None, [ErrIncomplete]) /\
  ReadValue Sample.w_rec "db" (-1) 4 = Done (None, [ErrIncomplete]).
Proof. vm_compute. done. Qed.

(** * Further properties *)

(** ** The producer *)

(** X1. On a regular file and with a chunk size [size > 0], [readChunks]
    emits no empty chunk and no chunk longer than [size], and every chunk
    but the last one emitted has exactly [size] bytes. *)
Theorem readChunks_payload_lengths (fuel : nat) (w : world) (name : string)
    (d : bytes) (b : option nat) (size : Z) :
  files w !! name = Some (Regular d b) ->
  (0 < size)%Z -> length d < fuel ->
  exists out log,
    readChunks fuel w name make size = Done (out, log) /\
    forall k s, queue out !! k = Some s ->
      0 < length (value s) <= Z.to_nat size /\
      (S k < length (queue out) -> length (value s) = Z.to_nat size).
Proof.
  intros Hf Hs Hfuel.
  destruct (readChunks_regular fuel w name d b size Hf Hs Hfuel)
    as [log Hrun].
  eexists _, log. split; [exact Hrun|]. cbn [queue].
  intros k s Hk. apply chunks_lookup in Hk as [Hk ->]. cbn [value].
  rewrite chunks_length, chunk_length.
  assert (Hc : 0 < Z.to_nat size) by lia.
  pose proof (limit_le d b) as Hle.
  destruct (Nat.lt_ge_cases (limit d b) (length d)) as [Hfault|Hfine].
  - pose proof (count_faulty d b _ Hc Hfault). nia.
  - assert (limit d b = length d) as Heq by lia.
    pose proof (count_sound d b _ Hc Heq). nia.
Qed.

Lemma readChunks_payload_lengths_witness :
  exists out log,
    readChunks 11 Sample.w_bad "in" make 4 = Done (out, log) /\
    forall k s, queue out !! k = Some s ->
      0 < length (value s) <= Z.to_nat 4 /\
      (S k < length (queue out) -> length (value s) = Z.to_nat 4).
Proof.
  apply (readChunks_payload_lengths 11 Sample.w_bad "in" Sample.ten
           (Some 9) 4); [reflexivity | lia | vm_compute; lia].
Defined.

Lemma chunks_concat (d : bytes) (c n : nat) :
  concat (value <$> chunks d c n) = take (n * c) d.
Proof.
  unfold chunks. rewrite <- list_fmap_compose.
  change (value ∘ _) with (chunk d c). apply concat_chunks.
Qed.

(** X2. The payloads that [readChunks] emits, put end to end, are the
    first [count * size] bytes of the file, where count is the number of
    chunks emitted: a prefix of the file when the read fails in the
    middle, and the whole file when it does not. *)
Theorem readChunks_reassembles (fuel : nat) (w : world) (name : string)
    (d : bytes) (b : option nat) (size : Z) :
  files w !! name = Some (Regular d b) ->
  (0 < size)%Z -> length d < fuel ->
  exists out log,
    readChunks fuel w name make size = Done (out, log) /\
    concat (value <$> queue out)
    = take (length (queue out) * Z.to_nat size) d /\
    (limit d b = length d -> concat (value <$> queue out) = d).
Proof.
  intros Hf Hs Hfuel.
  destruct (readChunks_regular fuel w name d b size Hf Hs Hfuel)
    as [log Hrun].
  eexists _, log. split; [exact Hrun|]. cbn [queue].
  rewrite chunks_length, chunks_concat. split; [done|].
  intros Heq. apply take_ge.
  pose proof (count_sound d b (Z.to_nat size) ltac:(lia) Heq). lia.
Qed.

Lemma readChunks_reassembles_witness :
  exists out log,
    readChunks 11 Sample.w_ten "in" make 4 = Done (out, log) /\
    concat (value <$> queue out)
    = take (length (queue out) * Z.to_nat 4) Sample.ten /\
    (limit Sample.ten None = length Sample.ten ->
     concat (value <$> queue out) = Sample.ten).
Proof.
  apply (readChunks_reassembles 11 Sample.w_ten "in" Sample.ten None 4);
    [reflexivity | lia | vm_compute; lia].
Defined.

(** X3. What [readChunks] prints on a regular file: nothing when it
    reaches the end of the file (the end of the file is not reported),
    "Error reading file" once when the read fails in the middle, and after
    that "Error closing file" when the deferred close fails. *)
Theorem readChunks_prints (fuel : nat) (w : world) (name : string)
    (d : bytes) (b : option nat) (size : Z) :
  files w !! name = Some (Regular d b) ->
  (0 < size)%Z -> length d < fuel ->
  exists out,
    readChunks fuel w name make size
    = Done (out,
            (if limit d b <? length d then [ErrReading] else [])
            ++ (if close_err w then [ErrClosing] else [])).
Proof.
  intros Hf Hs Hfuel. unfold readChunks, Open. rewrite Hf.
  destruct (Z.ltb_spec size 0) as [|_]; [lia|].
  assert (Hc : 0 < Z.to_nat size) by lia.
  pose proof (chunk_count_le d b _ Hc) as Hn.
  pose proof (readLoop_spec d b _ Hc fuel 0 make [] ltac:(lia) ltac:(lia))
    as Hloop.
  change (Int.count 0) with 0%Z in Hloop.
  cbn [Nat.mul Nat.min] in Hloop. rewrite Hloop.
  eexists.
  destruct (limit d b <? length d), (close_err w); reflexivity.
Qed.

Lemma readChunks_prints_witness :
  exists out,
    readChunks 11 Sample.w_bad "in" make 4
    = Done (out,
            (if limit Sample.ten (Some 9) <? length Sample.ten
             then [ErrReading] else [])
            ++ (if close_err Sample.w_bad then [ErrClosing] else [])).
Proof.
  apply (readChunks_prints 11 Sample.w_bad "in" Sample.ten (Some 9) 4);
    [reflexivity | lia | vm_compute; lia].
Defined.

Lemma readLoop_zero (fuel : nat) : forall f i out log,
  readLoop fuel f 0 i out log = None.
Proof.
  induction fuel as [|fuel IH]; intros f i out log; [done|].
  cbn [readLoop]. unfold ReadFull. cbn [Nat.leb err_ne andb]. apply IH.
Qed.

(** X4. With the chunk size 0 the read loop has no exit: [io.ReadFull] on
    an empty buffer reads nothing and reports no error, so on a file that
    can be opened [readChunks] does not return, whatever the fuel, and
    neither does [ProcessFile] when it has workers. *)
Theorem readChunks_zero_size (fuel : nat) (schedule : list nat) (w : world)
    (inputFile outputFile : string) (process : shard -> shard) (num : Z)
    (d : bytes) (b : option nat) :
  files w !! inputFile = Some (Regular d b) ->
  (0 < num)%Z ->
  readChunks fuel w inputFile make 0 = Spin /\
  ProcessFile fuel schedule w inputFile outputFile process num 0 = Spin.
Proof.
  intros Hf Hnum.
  assert (Hread : readChunks fuel w inputFile make 0 = Spin).
  { unfold readChunks, Open. rewrite Hf. cbn [Z.ltb Z.compare Z.to_nat].
    by rewrite readLoop_zero. }
  split; [exact Hread|].
  unfold ProcessFile. rewrite Hread.
  destruct (Z.ltb_spec num 0) as [|_]; [lia|].
  destruct (Z.to_nat num) eqn:Hn; [lia|done].
Qed.

Lemma readChunks_zero_size_witness :
  readChunks 1000 Sample.w_ten "in" make 0 = Spin /\
  ProcessFile 1000 [0; 1] Sample.w_ten "in" "out" Sample.identity 2 0
  = Spin.
Proof.
  apply (readChunks_zero_size 1000 [0; 1] Sample.w_ten "in" "out"
           Sample.identity 2 Sample.ten None); [reflexivity | lia].
Defined.

(** ** The collector *)

Lemma collect_lookup_inv (rs : list shard) (i : Z) (v : bytes) :
  collect rs !! i = Some v ->
  exists s, s ∈ rs /\ index s = i /\ value s = v.
Proof.
  induction rs as [|x rs IH] using rev_ind; [done|].
  rewrite collect_snoc. destruct (decide (index x = i)) as [<-|Hne].
  - rewrite lookup_insert_eq. intros [= <-].
    exists x. split; [|done]. apply elem_of_app. right. constructor.
  - rewrite lookup_insert_ne by done. intros H.
    destruct (IH H) as (s & Hin & Hs). exists s. split; [|done].
    apply elem_of_app. by left.
Qed.

Lemma collect_lookup_None (rs : list shard) (i : Z) :
  collect rs !! i = None <-> i ∉ index <$> rs.
Proof.
  rewrite <- not_elem_of_dom, collect_dom.
  by rewrite elem_of_list_to_set.
Qed.

(** X5. The collector's map keeps, for each index, the payload of the last
    result received with that index (a later result replaces an earlier
    one with the same index), and has no entry for an index that no
    result carries. *)
Theorem collect_last_wins (before after : list shard) (s : shard) :
  index s ∉ index <$> after ->
  collect (before ++ s :: after) !! index s = Some (value s) /\
  (forall i, i ∉ index <$> (before ++ s :: after) ->
     collect (before ++ s :: after) !! i = None).
Proof.
  intros Hlast. split; [|intros i Hi; by apply collect_lookup_None].
  induction after as [|x after IH] using rev_ind.
  - by rewrite collect_snoc, lookup_insert_eq.
  - rewrite fmap_app in Hlast. apply not_elem_of_app in Hlast as [Hl Hx].
    rewrite app_comm_cons, app_assoc, collect_snoc.
    rewrite lookup_insert_ne; [by apply IH|].
    intros Heq. apply Hx. rewrite <- Heq. constructor.
Qed.

Lemma collect_last_wins_witness :
  collect ([Shard 7 (Sample.B "old")] ++ Shard 7 (Sample.B "new")
             :: [Shard 3 (Sample.B "x")]) !! 7%Z
  = Some (Sample.B "new") /\
  (forall i,
     i ∉ index <$> ([Shard 7 (Sample.B "old")]
                      ++ Shard 7 (Sample.B "new")
                      :: [Shard 3 (Sample.B "x")]) ->
     collect ([Shard 7 (Sample.B "old")] ++ Shard 7 (Sample.B "new")
                :: [Shard 3 (Sample.B "x")]) !! i = None).
Proof.
  apply (collect_last_wins [Shard 7 (Sample.B "old")]
           [Shard 3 (Sample.B "x")] (Shard 7 (Sample.B "new"))).
  cbn. intros H. apply list_elem_of_singleton in H. discriminate.
Defined.

Lemma size_list_to_set_le (l : list Z) :
  size (list_to_set l : gset Z) <= length l /\
  (size (list_to_set l : gset Z) = length l -> NoDup l).
Proof.
  induction l as [|x l [IHle IHnd]]; cbn [list_to_set length].
  - rewrite size_empty. split; [lia|constructor].
  - destruct (decide (x ∈ l)) as [Hin|Hout].
    + assert (({[x]} ∪ list_to_set l : gset Z) = list_to_set l) as ->.
      { apply subseteq_union_1_L, singleton_subseteq_l.
        by apply elem_of_list_to_set. }
      split; lia.
    + rewrite size_union, size_singleton.
      * split; [lia|]. intros Heq. constructor; [done|].
        apply IHnd. lia.
      * apply disjoint_singleton_l. by rewrite elem_of_list_to_set.
Qed.

(** X6. The count [len(result)] that bounds the write loop is the number
    of distinct indices received: it is at most the number of results, and
    it equals that number exactly when no two results carry the same
    index. *)
Theorem collect_count (rs : list shard) :
  size (collect rs) = size (list_to_set (index <$> rs) : gset Z) /\
  size (collect rs) <= length rs /\
  (size (collect rs) = length rs <-> NoDup (index <$> rs)).
Proof.
  assert (Hsize : size (collect rs)
                  = size (list_to_set (index <$> rs) : gset Z))
    by (by rewrite <- size_dom, collect_dom).
  destruct (size_list_to_set_le (index <$> rs)) as [Hle Hnd].
  rewrite length_fmap in Hle, Hnd.
  split; [exact Hsize|]. split; [lia|]. split.
  - intros Heq. apply Hnd. lia.
  - apply collect_size.
Qed.

(** ** The pipeline *)

Lemma collect_perm (rs rs' : list shard) :
  rs ≡ₚ rs' -> NoDup (index <$> rs) -> collect rs = collect rs'.
Proof.
  intros Hperm Hnd.
  assert (Hnd' : NoDup (index <$> rs')) by (by rewrite <- Hperm).
  apply map_eq. intros i.
  destruct (collect rs !! i) as [v|] eqn:Hi.
  - apply collect_lookup_inv in Hi as (s & Hin & <- & <-).
    symmetry. apply collect_lookup; [done|]. by rewrite <- Hperm.
  - symmetry. apply collect_lookup_None. rewrite <- Hperm.
    by apply collect_lookup_None.
Qed.

Lemma finish_denied (w : world) (outputFile : string) (read : chan shard)
    (sent : list shard) :
  files w !! outputFile = Some NoAccess ->
  finish w outputFile read sent
  = Done (Outcome w read (Chan sent true) (Chan [false] false) [] []).
Proof.
  intros Hno. unfold finish, writeResults, close. cbn [closed queue].
  by rewrite (OpenFile_denied w outputFile Hno).
Qed.

(** What [finish] does depends on the results only through the map that
    the collector builds from them. *)
Lemma finish_same (w : world) (outputFile : string) (read : chan shard)
    (sent sent' : list shard) :
  collect sent = collect sent' ->
  exists o o',
    finish w outputFile read sent = Done o /\
    finish w outputFile read sent' = Done o' /\
    o_world o = o_world o' /\ o_calls o = o_calls o' /\
    o_done o = o_done o' /\ o_stdout o = o_stdout o'.
Proof.
  intros Heq. unfold finish, writeResults, close. cbn [closed queue].
  rewrite Heq. destruct (OpenFile w outputFile) as [[w1 file]|].
  - destruct (writeLoop _ _ _ _ _ _ _) as [[[w2 file2] done2] log].
    destruct (close_err w); eexists _, _; done.
  - eexists _, _. done.
Qed.

(** The run of [ProcessFile] up to the join of the workers. *)
Lemma ProcessFile_run (fuel : nat) (schedule : list nat) (w : world)
    (inputFile outputFile : string) (process : shard -> shard)
    (num size : Z) (d : bytes) :
  world_ok w ->
  files w !! inputFile = Some (Regular d None) ->
  (0 < num)%Z -> (0 < size)%Z -> length d < fuel ->
  (forall s, index (process s) = index s) ->
  completes process schedule (produced d size) (Z.to_nat num) ->
  exists sent,
    ProcessFile fuel schedule w inputFile outputFile process num size
    = finish w outputFile (Chan (produced d size) true) sent /\
    sent ≡ₚ process <$> produced d size /\
    NoDup (index <$> sent) /\
    payloads (collect sent) = value <$> (process <$> produced d size).
Proof.
  intros Hok Hin Hnum Hsize Hfuel Hproc Hsched.
  destruct (readChunks_regular fuel w inputFile d None size Hin Hsize Hfuel)
    as [log Hread].
  rewrite chunk_count_healthy in Hread. fold (produced d size) in Hread.
  unfold ProcessFile. rewrite Hread.
  destruct (Z.ltb_spec num 0) as [|_]; [lia|].
  cbn [queue]. unfold completes in Hsched. rewrite Hsched.
  eexists. split; [reflexivity|].
  assert (Hperm : resultQ (play process schedule
                             (start (produced d size) (Z.to_nat num)))
                  ≡ₚ process <$> produced d size)
    by (apply play_joined; [lia|exact Hsched]).
  assert (Hidx : index <$> (process <$> produced d size)
                 = Z.of_nat <$> seq 0 (length (process <$> produced d size))).
  { rewrite length_fmap, <- list_fmap_compose.
    rewrite (list_fmap_ext (index ∘ process) index (produced d size))
      by (intros; apply Hproc).
    apply produced_index; [done|]. by apply (Hok inputFile d None). }
  split; [exact Hperm|]. split.
  - rewrite Hperm, Hidx. apply NoDup_fmap_2; [apply _|apply NoDup_seq].
  - by apply payloads_sorted.
Qed.

(** X8. The outcome of [ProcessFile] does not depend on the number of
    workers nor on the order in which they take and deliver the chunks:
    for a transform that keeps the index, two runs on the same world with
    different numbers of workers and different schedules leave the same
    world, make the same writes, send the same values on [done] and print
    the same. This holds whether the writes succeed or not. *)
Theorem ProcessFile_invariance (fuel : nat) (schedule schedule' : list nat)
    (w : world) (inputFile outputFile : string) (process : shard -> shard)
    (num num' size : Z) (d : bytes) :
  world_ok w ->
  files w !! inputFile = Some (Regular d None) ->
  (0 < num)%Z -> (0 < num')%Z -> (0 < size)%Z -> length d < fuel ->
  (forall s, index (process s) = index s) ->
  completes process schedule (produced d size) (Z.to_nat num) ->
  completes process schedule' (produced d size) (Z.to_nat num') ->
  exists o o',
    ProcessFile fuel schedule w inputFile outputFile process num size
    = Done o /\
    ProcessFile fuel schedule' w inputFile outputFile process num' size
    = Done o' /\
    o_world o = o_world o' /\ o_calls o = o_calls o' /\
    o_done o = o_done o' /\ o_stdout o = o_stdout o'.
Proof.
  intros Hok Hin Hnum Hnum' Hsize Hfuel Hproc Hs Hs'.
  destruct (ProcessFile_run fuel schedule w inputFile outputFile process
              num size d) as (sent & -> & Hperm & Hnd & _); try done.
  destruct (ProcessFile_run fuel schedule' w inputFile outputFile process
              num' size d) as (sent' & -> & Hperm' & _ & _); try done.
  apply finish_same, collect_perm; [|exact Hnd].
  by rewrite Hperm, Hperm'.
Qed.

Lemma ProcessFile_invariance_witness :
  exists o o',
    ProcessFile 11 [0; 1; 1; 0; 0; 0] Sample.w_ten "in" "out"
                Sample.identity 2 4 = Done o /\
    ProcessFile 11 [2; 0; 1; 1; 2; 0] Sample.w_ten "in" "out"
                Sample.identity 3 4 = Done o' /\
    o_world o = o_world o' /\ o_calls o = o_calls o' /\
    o_done o = o_done o' /\ o_stdout o = o_stdout o'.
Proof.
  apply (ProcessFile_invariance 11 [0; 1; 1; 0; 0; 0] [2; 0; 1; 1; 2; 0]
           Sample.w_ten "in" "out" Sample.identity 2 3 4 Sample.ten).
  - intros name d b. unfold Sample.w_ten. cbn [files].
    intros H. apply lookup_singleton_Some in H as [_ [= <- _]].
    vm_compute. discriminate.
  - reflexivity.
  - lia.
  - lia.
  - lia.
  - vm_compute. lia.
  - reflexivity.
  - reflexivity.
  - reflexivity.
Defined.

Lemma denied_or_not (w : world) (name : string) :
  files w !! name = Some NoAccess \/ files w !! name <> Some NoAccess.
Proof.
  destruct (files w !! name) as [[? ?|]|]; [right|left|right]; done.
Qed.

Lemma play_no_workers (process : shard -> shard) (pending : list shard)
    (schedule : list nat) :
  play process schedule (start pending 0) = start pending 0.
Proof.
  induction schedule as [|i schedule IH]; [done|].
  cbn [play foldl].
  assert (turn process (start pending 0) i = start pending 0) as ->;
    [|exact IH].
  unfold turn, start. cbn [hands replicate]. by rewrite lookup_nil.
Qed.

Lemma readChunks_no_panic (fuel : nat) (w : world) (name : string)
    (out : chan shard) (size : Z) :
  (0 <= size)%Z -> readChunks fuel w name out size <> Panic.
Proof.
  intros Hs. unfold readChunks. destruct (Open w name); [|done].
  destruct (Z.ltb_spec size 0) as [|_]; [lia|].
  by destruct (readLoop _ _ _ _ _ _) as [[? ?]|].
Qed.

(** X9. With no workers ([num = 0]) nothing is ever received from the
    producer and [wg.Wait()] returns at once: for every input, every
    chunk size [size >= 0] and an output file that can be opened,
    [ProcessFile] returns having delivered and written nothing (the output
    file keeps the content it had, or is created empty), and still prints
    the success message. *)
Theorem ProcessFile_no_workers (fuel : nat) (schedule : list nat)
    (w : world) (inputFile outputFile : string)
    (process : shard -> shard) (size : Z) :
  (0 <= size)%Z ->
  files w !! outputFile <> Some NoAccess ->
  exists o rest,
    ProcessFile fuel schedule w inputFile outputFile process 0 size
    = Done o /\
    queue (o_results o) = [] /\
    o_calls o = [] /\
    content (o_world o) outputFile = content w outputFile /\
    queue (o_done o) = true :: rest /\
    o_stdout o = [Success].
Proof.
  intros Hsize Hout.
  assert (Hfin : exists read,
    ProcessFile fuel schedule w inputFile outputFile process 0 size
    = finish w outputFile read []).
  { unfold ProcessFile. cbn [Z.ltb Z.compare Z.to_nat].
    pose proof (readChunks_no_panic fuel w inputFile make size Hsize) as Hnp.
    destruct (readChunks fuel w inputFile make size) as [[read log]| |];
      [|done|by eexists].
    rewrite play_no_workers. cbn [joined start hands replicate forallb
                                  resultQ].
    by eexists. }
  destruct Hfin as [read ->].
  destruct (finish_spec w outputFile read [] Hout)
    as (c & Hfin & Hfile & Hcalls & Hdone).
  rewrite payloads_empty in *.
  assert (Hfit : fits (room w) [] = true) by (by destruct (room w)).
  assert (Hacc : accepted (room w) (concat []) = [])
    by (destruct (room w); [apply take_nil|done]).
  rewrite Hfit in *. rewrite Hacc, overwrite_nil in Hfile.
  rewrite take_nil in Hcalls. cbn [app] in Hdone.
  eexists _, _. split; [exact Hfin|].
  cbn [o_results o_calls o_world o_done o_stdout queue].
  split; [done|]. split; [done|]. split; [|done].
  unfold content at 1. by rewrite Hfile.
Qed.

Lemma ProcessFile_no_workers_witness :
  exists o rest,
    ProcessFile 11 [0; 1] Sample.w_ten "in" "out" Sample.identity 0 4
    = Done o /\
    queue (o_results o) = [] /\
    o_calls o = [] /\
    content (o_world o) "out" = content Sample.w_ten "out" /\
    queue (o_done o) = true :: rest /\
    o_stdout o = [Success].
Proof.
  apply (ProcessFile_no_workers 11 [0; 1] Sample.w_ten "in" "out"
           Sample.identity 4); [lia | vm_compute; discriminate].
Defined.

(** X10. For a file that reads without error, [ProcessFile] returns and
    prints its success message exactly when the output file could be
    opened and the device took every byte of the transformed payloads.
    (This is about the message of [ProcessFile] itself; the producer and
    the collector print their own diagnostics.) *)
Theorem ProcessFile_success_iff (fuel : nat) (schedule : list nat)
    (w : world) (inputFile outputFile : string)
    (process : shard -> shard) (num size : Z) (d : bytes) :
  world_ok w ->
  files w !! inputFile = Some (Regular d None) ->
  (0 < num)%Z -> (0 < size)%Z -> length d < fuel ->
  (forall s, index (process s) = index s) ->
  completes process schedule (produced d size) (Z.to_nat num) ->
  exists o,
    ProcessFile fuel schedule w inputFile outputFile process num size
    = Done o /\
    (Success ∈ o_stdout o <->
     files w !! outputFile <> Some NoAccess /\
     fits (room w) (value <$> (process <$> produced d size)) = true).
Proof.
  intros Hok Hin Hnum Hsize Hfuel Hproc Hsched.
  destruct (ProcessFile_run fuel schedule w inputFile outputFile process
              num size d) as (sent & -> & _ & _ & Hpay); try done.
  destruct (denied_or_not w outputFile) as [Hno|Hout].
  - rewrite (finish_denied _ _ _ _ Hno). eexists. split; [reflexivity|].
    cbn [o_stdout]. split; [by intros ?%elem_of_nil|]. by intros [? _].
  - destruct (finish_spec w outputFile (Chan (produced d size) true) sent
                Hout) as (c & -> & _).
    rewrite Hpay. eexists. split; [reflexivity|]. cbn [o_stdout].
    destruct (fits (room w) _).
    + split; [done|]. intros _. constructor.
    + split; [by intros ?%elem_of_nil|]. by intros [_ ?].
Qed.

Lemma ProcessFile_success_iff_witness :
  exists o,
    ProcessFile 11 [0; 1; 1; 0; 0; 0] Sample.w_ten "in" "out"
                Sample.identity 2 4 = Done o /\
    (Success ∈ o_stdout o <->
     files Sample.w_ten !! "out"%string <> Some NoAccess /\
     fits (room Sample.w_ten)
          (value <$> (Sample.identity <$> produced Sample.ten 4)) = true).
Proof.
  apply (ProcessFile_success_iff 11 [0; 1; 1; 0; 0; 0] Sample.w_ten "in"
           "out" Sample.identity 2 4 Sample.ten).
  - intros name d b. unfold Sample.w_ten. cbn [files].
    intros H. apply lookup_singleton_Some in H as [_ [= <- _]].
    vm_compute. discriminate.
  - reflexivity.
  - lia.
  - lia.
  - vm_compute. lia.
  - reflexivity.
  - reflexivity.
Defined.

Lemma concat_same_length (process : shard -> shard) (l : list shard) :
  (forall s, length (value (process s)) = length (value s)) ->
  length (concat (value <$> (process <$> l)))
  = length (concat (value <$> l)).
Proof.
  intros Hlen. induction l as [|s l IH]; [done|].
  cbn [fmap list_fmap concat]. rewrite !length_app, Hlen.
  f_equal. exact IH.
Qed.

(** X11. [ProcessFile] can write to the file it reads: the collector opens
    the output only after the last chunk has been read, so with the same
    path for input and output the chunks are those of the old content,
    and the file ends as the transformed payloads followed by what the old
    content had beyond their length. For a transform that keeps the
    length of each payload the file ends as exactly the transformed
    payloads, with its old length. *)
Theorem ProcessFile_in_place (fuel : nat) (schedule : list nat)
    (w : world) (file : string) (process : shard -> shard)
    (num size : Z) (d : bytes) :
  world_ok w ->
  files w !! file = Some (Regular d None) ->
  room w = None ->
  (0 < num)%Z -> (0 < size)%Z -> length d < fuel ->
  (forall s, index (process s) = index s) ->
  completes process schedule (produced d size) (Z.to_nat num) ->
  exists o,
    ProcessFile fuel schedule w file file process num size = Done o /\
    queue (o_read o) = produced d size /\
    content (o_world o) file
    = concat (value <$> (process <$> produced d size))
      ++ drop (length (concat (value <$> (process <$> produced d size)))) d /\
    ((forall s, length (value (process s)) = length (value s)) ->
     content (o_world o) file
     = concat (value <$> (process <$> produced d size)) /\
     length (content (o_world o) file) = length d).
Proof.
  intros Hok Hin Hroom Hnum Hsize Hfuel Hproc Hsched.
  destruct (ProcessFile_run fuel schedule w file file process
              num size d) as (sent & -> & _ & _ & Hpay); try done.
  assert (Hout : files w !! file <> Some NoAccess) by (by rewrite Hin).
  destruct (finish_spec w file (Chan (produced d size) true) sent Hout)
    as (c & -> & Hfile & _).
  rewrite Hpay, Hroom in Hfile. cbn [accepted] in Hfile.
  rewrite overwrite_0 in Hfile.
  assert (Hold : content w file = d) by (unfold content; by rewrite Hin).
  rewrite Hold in Hfile.
  eexists. split; [reflexivity|]. cbn [o_read o_world queue].
  assert (Hcontent :
    content (c_world c) file
    = concat (value <$> (process <$> produced d size))
      ++ drop (length (concat (value <$> (process <$> produced d size)))) d).
  { unfold content at 1. by rewrite Hfile. }
  split; [done|]. split; [exact Hcontent|].
  intros Hlen. rewrite Hcontent.
  rewrite (concat_same_length process _ Hlen), produced_values by done.
  rewrite drop_all, app_nil_r. split; [done|].
  by rewrite (concat_same_length process _ Hlen), produced_values.
Qed.

Lemma ProcessFile_in_place_witness :
  exists o,
    ProcessFile 11 [0; 1; 1; 0; 0; 0] Sample.w_ten "in" "in"
                Sample.identity 2 4 = Done o /\
    queue (o_read o) = produced Sample.ten 4 /\
    content (o_world o) "in"
    = concat (value <$> (Sample.identity <$> produced Sample.ten 4))
      ++ drop (length (concat (value <$> (Sample.identity
                                            <$> produced Sample.ten 4))))
           Sample.ten /\
    ((forall s, length (value (Sample.identity s)) = length (value s)) ->
     content (o_world o) "in"
     = concat (value <$> (Sample.identity <$> produced Sample.ten 4)) /\
     length (content (o_world o) "in") = length Sample.ten).
Proof.
  apply (ProcessFile_in_place 11 [0; 1; 1; 0; 0; 0] Sample.w_ten "in"
           Sample.identity 2 4 Sample.ten).
  - intros name d b. unfold Sample.w_ten. cbn [files].
    intros H. apply lookup_singleton_Some in H as [_ [= <- _]].
    vm_compute. discriminate.
  - reflexivity.
  - reflexivity.
  - lia.
  - lia.
  - vm_compute. lia.
  - reflexivity.
  - reflexivity.
Defined.

Lemma turn_suffix (process : shard -> shard) (p : pool) (i : nat) :
  chunkQ (turn process p i) `suffix_of` chunkQ p.
Proof.
  unfold turn. destruct (hands p !! i) as [[r|]|]; [done| |done].
  destruct (chunkQ p) as [|read rest] eqn:Hq; [by rewrite Hq|].
  cbn [chunkQ]. by apply suffix_cons_r.
Qed.

Lemma play_suffix (process : shard -> shard) (schedule : list nat) :
  forall p, chunkQ (play process schedule p) `suffix_of` chunkQ p.
Proof.
  induction schedule as [|i schedule IH]; intros p; [done|].
  cbn [play foldl]. fold (play process schedule (turn process p i)).
  etrans; [apply IH|apply turn_suffix].
Qed.

(** X12. At every point of every schedule, for any number of workers, the
    pool has lost and duplicated nothing: the results already sent, those
    the workers hold, and the results of the chunks not yet taken are,
    together, the results of all the chunks of the producer, each once.
    The chunks are taken in the order of their emission (what is left is
    a suffix of what was emitted), and no worker holds more than one
    result. *)
Theorem pool_conserves (process : shard -> shard) (schedule : list nat)
    (pending : list shard) (num : nat) :
  resultQ (play process schedule (start pending num))
    ++ omap id (hands (play process schedule (start pending num)))
    ++ (process <$> chunkQ (play process schedule (start pending num)))
  ≡ₚ process <$> pending /\
  chunkQ (play process schedule (start pending num)) `suffix_of` pending /\
  length (hands (play process schedule (start pending num))) = num.
Proof.
  split; [|split].
  - rewrite play_bag. unfold start. cbn [resultQ hands chunkQ app].
    assert (omap id (replicate num (@None shard)) = []) as ->; [|done].
    induction num as [|num IH]; [done|exact IH].
  - apply (play_suffix process schedule (start pending num)).
  - rewrite play_hands_length. unfold start. cbn [hands].
    apply length_replicate.
Qed.

(** X13. When the deferred [file.Close] of the collector fails after all
    writes have succeeded, the collector has already sent [true]: the
    values it sends on [done] are [true] and then [false], and the caller,
    which receives the first one, prints the success message. *)
Theorem ProcessFile_close_failure (fuel : nat) (schedule : list nat)
    (w : world) (inputFile outputFile : string)
    (process : shard -> shard) (num size : Z) (d : bytes) :
  world_ok w ->
  files w !! inputFile = Some (Regular d None) ->
  files w !! outputFile <> Some NoAccess ->
  close_err w = true ->
  fits (room w) (value <$> (process <$> produced d size)) = true ->
  (0 < num)%Z -> (0 < size)%Z -> length d < fuel ->
  (forall s, index (process s) = index s) ->
  completes process schedule (produced d size) (Z.to_nat num) ->
  exists o,
    ProcessFile fuel schedule w inputFile outputFile process num size
    = Done o /\
    o_calls o = value <$> (process <$> produced d size) /\
    queue (o_done o) = [true; false] /\
    o_stdout o = [Success].
Proof.
  intros Hok Hin Hout Hclose Hfit Hnum Hsize Hfuel Hproc Hsched.
  destruct (ProcessFile_run fuel schedule w inputFile outputFile process
              num size d) as (sent & -> & _ & _ & Hpay); try done.
  destruct (finish_spec w outputFile (Chan (produced d size) true) sent
              Hout) as (c & -> & _ & Hcalls & Hdone).
  rewrite Hpay, Hfit, Hclose in *.
  rewrite attempts_fits, firstn_all in Hcalls by done.
  eexists. split; [reflexivity|]. cbn [o_calls o_done o_stdout]. done.
Qed.

Lemma ProcessFile_close_failure_witness :
  exists o,
    ProcessFile 11 [0; 1; 1; 0; 0; 0] Sample.w_stuck "in" "out"
                Sample.identity 2 4 = Done o /\
    o_calls o = value <$> (Sample.identity <$> produced Sample.ten 4) /\
    queue (o_done o) = [true; false] /\
    o_stdout o = [Success].
Proof.
  apply (ProcessFile_close_failure 11 [0; 1; 1; 0; 0; 0] Sample.w_stuck
           "in" "out" Sample.identity 2 4 Sample.ten).
  - intros name d b. unfold Sample.w_stuck. cbn [files].
    intros H. apply lookup_singleton_Some in H as [_ [= <- _]].
    vm_compute. discriminate.
  - reflexivity.
  - vm_compute. discriminate.
  - reflexivity.
  - reflexivity.
  - lia.
  - lia.
  - vm_compute. lia.
  - reflexivity.
  - reflexivity.
Defined.

(** X14. What [ProcessFile] writes can be read back record by record with
    [ReadValue]. For a transform that keeps the index and gives every
    chunk a payload of [m > 0] bytes, an output file that did not exist
    and a device without limit, [ReadValue] on the output file with the
    record size [m] returns, for the number [k] of each chunk of the
    input, the transformed payload of that chunk. *)
Theorem ProcessFile_then_ReadValue (fuel : nat) (schedule : list nat)
    (w : world) (inputFile outputFile : string)
    (process : shard -> shard) (num size m : Z) (d : bytes) :
  world_ok w ->
  files w !! inputFile = Some (Regular d None) ->
  files w !! outputFile = None ->
  room w = None ->
  (0 < num)%Z -> (0 < size)%Z -> length d < fuel ->
  (forall s, index (process s) = index s) ->
  (0 < m)%Z ->
  (forall s, length (value (process s)) = Z.to_nat m) ->
  (Z.of_nat (length (produced d size)) * m <= Int.max)%Z ->
  completes process schedule (produced d size) (Z.to_nat num) ->
  exists o,
    ProcessFile fuel schedule w inputFile outputFile process num size
    = Done o /\
    forall k s, produced d size !! k = Some s ->
      exists log,
        ReadValue (o_world o) outputFile (Z.of_nat k) m
        = Done (Some (value (process s)), log).
Proof.
  intros Hok Hin Hnew Hroom Hnum Hsize Hfuel Hproc Hm Hlen Hmax Hsched.
  destruct (ProcessFile_run fuel schedule w inputFile outputFile process
              num size d) as (sent & -> & _ & _ & Hpay); try done.
  assert (Hout : files w !! outputFile <> Some NoAccess)
    by (by rewrite Hnew).
  destruct (finish_spec w outputFile (Chan (produced d size) true) sent
              Hout) as (c & -> & Hfile & _).
  rewrite Hpay, Hroom in Hfile. cbn [accepted] in Hfile.
  unfold content, bad_of in Hfile. rewrite Hnew, overwrite_0 in Hfile.
  rewrite drop_nil, app_nil_r in Hfile.
  eexists. split; [reflexivity|]. cbn [o_world].
  intros k s Hk.
  pose proof (lookup_lt_Some _ _ _ Hk) as Hlt.
  assert (Huni : uniform (value <$> (process <$> produced d size))
                         (Z.to_nat m)).
  { unfold uniform. rewrite <- list_fmap_compose.
    apply Forall_fmap, Forall_forall. intros x _. apply Hlen. }
  destruct (ReadValue_in_range (c_world c) outputFile
              (value <$> (process <$> produced d size)) (Z.of_nat k) m
              Hfile Hm Huni) as [Hget _].
  { unfold Int.min. nia. }
  apply Hget; [|lia].
  by rewrite Nat2Z.id, !list_lookup_fmap, Hk.
Qed.

Lemma ProcessFile_then_ReadValue_witness :
  exists o,
    ProcessFile 11 [0; 1; 1; 0; 0; 0] Sample.w_ten "in" "out"
                Sample.stamp 2 4 = Done o /\
    forall k s, produced Sample.ten 4 !! k = Some s ->
      exists log,
        ReadValue (o_world o) "out" (Z.of_nat k) 2
        = Done (Some (value (Sample.stamp s)), log).
Proof.
  apply (ProcessFile_then_ReadValue 11 [0; 1; 1; 0; 0; 0] Sample.w_ten
           "in" "out" Sample.stamp 2 4 2 Sample.ten).
  - intros name d b. unfold Sample.w_ten. cbn [files].
    intros H. apply lookup_singleton_Some in H as [_ [= <- _]].
    vm_compute. discriminate.
  - reflexivity.
  - reflexivity.
  - reflexivity.
  - lia.
  - lia.
  - vm_compute. lia.
  - reflexivity.
  - lia.
  - intros s. unfold Sample.stamp. cbn [value].
    rewrite length_take, length_app.
    change (length (Sample.B "__")) with 2. lia.
  - vm_compute. discriminate.
  - reflexivity.
Defined.

(** The run of the witness above: the output file holds "ABEFIJ", and its
    records of two bytes are read back one by one; past the last record
    the read fails. *)
Example ProcessFile_then_ReadValue_ten :
  exists o,
    ProcessFile 11 [0; 1; 1; 0; 0; 0] Sample.w_ten "in" "out"
                Sample.stamp 2 4 = Done o /\
    content (o_world o) "out" = Sample.B "ABEFIJ" /\
    ReadValue (o_world o) "out" 0 2 = Done (Some (Sample.B "AB"), []) /\
    ReadValue (o_world o) "out" 1 2 = Done (Some (Sample.B "EF"), []) /\
    ReadValue (o_world o) "out" 2 2 = Done (Some (Sample.B "IJ"), []) /\
    ReadValue (o_world o) "out" 3 2 = Done (None, [ErrIncomplete]).
Proof. eexists. vm_compute. done. Qed.





(** ** Random access *)

(** X15. What [ReadValue] returns on a regular file, for every index and
    every size from 0 to the length of the file (a buffer that the
    program can allocate): with [off] the offset [index * size] as int64
    arithmetic computes it, the [size] bytes of the file at [off] when
    [off] is not negative and all of these bytes can be read, and nil in
    every other case (a negative offset, a record that is cut short by the
    end of the file or by a read error, an offset past the end). *)
Theorem ReadValue_exact (w : world) (filePath : string) (d : bytes)
    (b : option nat) (index size : Z) :
  files w !! filePath = Some (Regular d b) ->
  (0 <= size <= Z.of_nat (length d))%Z ->
  exists log,
    ReadValue w filePath index size
    = Done (if ((0 <=? Int.mul index size)
                && (Int.mul index size + size <=? Z.of_nat (limit d b)))%Z
            then Some (take (Z.to_nat size)
                         (drop (Z.to_nat (Int.mul index size)) d))
            else None,
            log).
Proof.
  intros Hf [Hsize _]. unfold ReadValue, Open. rewrite Hf.
  destruct (Z.ltb_spec size 0) as [|_]; [lia|].
  assert (Hzero : size = 0%Z -> Int.mul index size = 0%Z).
  { intros ->. unfold Int.mul. by rewrite Z.mul_0_r. }
  set (off := Int.mul index size) in *.
  unfold ReadAt. cbn [r_data r_bad].
  pose proof (limit_le d b) as Hle.
  destruct (Z.ltb_spec off 0) as [Hneg|Hpos].
  - destruct (Z.leb_spec 0 off) as [|_]; [lia|]. cbn [andb].
    destruct (Z.ltb_spec (Z.of_nat 0) size) as [_|?]; [|lia].
    eexists. reflexivity.
  - destruct (Z.leb_spec 0 off) as [_|]; [|lia]. cbn [andb].
    set (n := Z.to_nat size). set (o := Z.to_nat off).
    assert (Hgot : length (take n (drop o (take (limit d b) d)))
                   = Nat.min n (limit d b - o)).
    { rewrite length_take, length_drop, length_take. lia. }
    rewrite Hgot.
    destruct (Z.leb_spec (off + size) (Z.of_nat (limit d b))) as [Hin|Hcut].
    + assert (Hon : o + n <= limit d b) by lia.
      rewrite Nat.min_l by lia. rewrite Nat.sub_diag. cbn [replicate].
      rewrite app_nil_r.
      destruct (Z.ltb_spec (Z.of_nat n) size) as [|_]; [lia|].
      eexists. do 3 f_equal.
      rewrite !take_drop_commute, take_take. do 2 f_equal. lia.
    + destruct (Z.ltb_spec (Z.of_nat (Nat.min n (limit d b - o))) size)
        as [_|]; [|lia].
      eexists. reflexivity.
Qed.

Lemma ReadValue_exact_witness :
  exists log,
    ReadValue Sample.w_bad "in" 2 4
    = Done (if ((0 <=? Int.mul 2 4)
                && (Int.mul 2 4 + 4
                    <=? Z.of_nat (limit Sample.ten (Some 9%nat))))%Z
            then Some (take (Z.to_nat 4)
                         (drop (Z.to_nat (Int.mul 2 4)) Sample.ten))
            else None,
            log).
Proof.
  apply (ReadValue_exact Sample.w_bad "in" Sample.ten (Some 9) 2 4);
    [reflexivity | vm_compute; split; discriminate].
Defined.

(** X16. For a file of uniform records of [size > 0] bytes and an index
    whose product with [size] is in the range of int64, [ReadValue]
    returns record number [index] when there is one, and nil when the
    index is negative or not below the number of records. *)
Theorem ReadValue_records (w : world) (filePath : string)
    (records : list bytes) (index size : Z) :
  files w !! filePath = Some (Regular (concat records) None) ->
  (0 < size)%Z -> uniform records (Z.to_nat size) ->
  (Int.min <= index * size <= Int.max)%Z ->
  exists log,
    ReadValue w filePath index size
    = Done (if (index <? 0)%Z then None else records !! Z.to_nat index,
            log).
Proof.
  intros Hf Hsize Huni Hrange.
  destruct (ReadValue_in_range w filePath records index size
              Hf Hsize Huni Hrange) as [Hget Hnil].
  destruct (Z.ltb_spec index 0) as [Hneg|Hpos].
  - apply Hnil. by left.
  - destruct (records !! Z.to_nat index) as [r|] eqn:Hr.
    + by apply Hget.
    + apply Hnil. right. apply lookup_ge_None in Hr. lia.
Qed.

Lemma ReadValue_records_witness :
  exists log,
    ReadValue Sample.w_rec "db" 0 4
    = Done (if (0 <? 0)%Z then None
            else [Sample.B "ABCD"] !! Z.to_nat 0,
            log).
Proof.
  apply (ReadValue_records Sample.w_rec "db" [Sample.B "ABCD"] 0 4).
  - reflexivity.
  - lia.
  - repeat constructor.
  - vm_compute. split; discriminate.
Defined.

(** X17. With the record size 0 [ReadValue] never reports an incomplete
    value: on every file that can be opened it returns an empty, non-nil
    buffer for every index, negative and out of range ones included. *)
Theorem ReadValue_size_zero (w : world) (filePath : string) (d : bytes)
    (b : option nat) (index : Z) :
  files w !! filePath = Some (Regular d b) ->
  exists log, ReadValue w filePath index 0 = Done (Some [], log).
Proof.
  intros Hf. unfold ReadValue, Open. rewrite Hf.
  unfold Int.mul. rewrite Z.mul_0_r. change (Int.wrap 0) with 0%Z.
  unfold ReadAt. cbn [Z.ltb Z.compare Z.to_nat].
  rewrite take_0. cbn [length Nat.sub replicate app Z.of_nat Z.ltb
                       Z.compare].
  eexists. reflexivity.
Qed.

Lemma ReadValue_size_zero_witness :
  exists log,
    ReadValue Sample.w_rec "db" (-5) 0 = Done (Some [], log).
Proof.
  apply (ReadValue_size_zero Sample.w_rec "db" (Sample.B "ABCD") None (-5)).
  reflexivity.
Defined.
